(** * OpenWakeWord2Video: the wake-word trigger pipeline of [main.py]

    A shallow embedding of [RollingAudioRecorder], [WakeWordDetector] and
    [main] (file [main.py]), the properties the specification states about
    them, and further properties of the code.

    Conventions of the embedding.
    - Python [int] is [Z]; [float] is the kernel's binary64 [float]; [bytes]
      is [list byte]; a numpy [int16] array is a [list Z]; a [dict] iterated
      in insertion order is an association list; [os.environ] is a
      [gmap string string].
    - A call that can raise returns a [result]; an object mutated in place
      is passed and returned.
    - What the program does to the outside (files written, sub-processes,
      calls on the model and on the capture thread) is recorded as a trace of
      [op]s, oldest first; what the outside answers (the outcome of a file
      write, of [mpv], of [Model.predict], of PyAudio) is read from the
      classes [Detector], [Platform] and [PyAudio].

    Layout: Part I holds the definitions, Part II the theorems. *)

From Stdlib Require Import ZArith List String Ascii Bool Lia Floats.
From stdpp Require Import gmap strings list.

#[local] Set Warnings "-inexact-float".
#[local] Open Scope Z_scope.

(* ================================================================= *)
(** * Part I: definitions *)
(* ================================================================= *)

(** ** Python values and exceptions *)

Module Py.

(** The exceptions the program can meet. [KeyboardInterrupt] derives from
    [BaseException] only: an [except Exception] clause does not catch it. *)
Inductive exn : Type :=
| Empty
| FileNotFoundError
| ValueError
| ZeroDivisionError
| OtherException (name : string)
| KeyboardInterrupt.

Definition is_Exception (e : exn) : bool :=
  match e with
  | KeyboardInterrupt => false
  | _ => true
  end.

Inductive result (A : Type) : Type :=
| Ok (a : A)
| Raise (e : exn).
Arguments Ok {A} a.
Arguments Raise {A} e.

(** [l[:n]] *)
Definition slice_to {A} (l : list A) (n : Z) : list A :=
  if 0 <=? n then take (Z.to_nat n) l
  else take (Z.to_nat (Z.of_nat (length l) + n)) l.

(** [l[n:]] *)
Definition slice_from {A} (l : list A) (n : Z) : list A :=
  if 0 <=? n then drop (Z.to_nat n) l
  else drop (Z.to_nat (Z.of_nat (length l) + n)) l.

(** [len(l)] as a Python int *)
Definition len {A} (l : list A) : Z := Z.of_nat (length l).

(** One little-endian two's-complement 16-bit sample. *)
Definition int16_of_bytes (lo hi : Byte.byte) : Z :=
  let u := Z.of_N (Byte.to_N lo) + 256 * Z.of_N (Byte.to_N hi) in
  if u <? 32768 then u else u - 65536.

(** [np.frombuffer(audio_data, dtype=np.int16)]: a buffer whose size is not
    a multiple of the element size raises [ValueError]. *)
Fixpoint frombuffer (audio_data : list Byte.byte) : result (list Z) :=
  match audio_data with
  | [] => Ok []
  | [_] => Raise ValueError
  | lo :: hi :: rest =>
      match frombuffer rest with
      | Ok a => Ok (int16_of_bytes lo hi :: a)
      | Raise e => Raise e
      end
  end.

(** Truth value of a [str]: the empty string is false. *)
Definition truthy (s : string) : bool :=
  match s with
  | EmptyString => false
  | _ => true
  end.

(** Truth value of an optional argument ([None] or a [str]). *)
Definition truthy_opt (o : option string) : bool :=
  match o with
  | None => false
  | Some s => truthy s
  end.

(** [s.split(",")]: the pieces between the separators, at least one piece. *)
Fixpoint split_acc (sep : ascii) (cur : string) (s : string) : list string :=
  match s with
  | EmptyString => [cur]
  | String c rest =>
      if Ascii.eqb c sep then cur :: split_acc sep EmptyString rest
      else split_acc sep (cur +:+ String c EmptyString) rest
  end.

Definition split (sep : ascii) (s : string) : list string :=
  split_acc sep EmptyString s.

(** [c.lower()] on ASCII letters. *)
Definition lower_ascii (c : ascii) : ascii :=
  let n := nat_of_ascii c in
  if ((65 <=? n)%nat && (n <=? 90)%nat)%bool then ascii_of_nat (n + 32) else c.

Fixpoint lower (s : string) : string :=
  match s with
  | EmptyString => EmptyString
  | String c rest => String (lower_ascii c) (lower rest)
  end.

(** [sep.join(l)] *)
Fixpoint join (sep : string) (l : list string) : string :=
  match l with
  | [] => EmptyString
  | [x] => x
  | x :: rest => x +:+ sep +:+ join sep rest
  end.

(** [c in s] for one character [c]. *)
Fixpoint has_char (c : ascii) (s : string) : bool :=
  match s with
  | EmptyString => false
  | String x rest => Ascii.eqb x c || has_char c rest
  end.

(** A [str] is held as the bytes of its UTF-8 encoding. The white space of
    [str.strip()] is what [str.isspace] accepts. In one byte: tab, line
    feed, vertical tab, form feed, carriage return, the four separators 0x1c
    to 0x1f, and the space. *)
Definition isspace (c : ascii) : bool :=
  let n := nat_of_ascii c in
  ((9 <=? n)%nat && (n <=? 13)%nat) || ((28 <=? n)%nat && (n <=? 32)%nat).

(** In two bytes: U+0085 (0xC2 0x85) and U+00A0 (0xC2 0xA0). *)
Definition isspace2 (c d : ascii) : bool :=
  ((N_of_ascii c =? 194) && ((N_of_ascii d =? 133) || (N_of_ascii d =? 160)))%N.

(** In three bytes: U+1680 (0xE1 0x9A 0x80), U+2000 to U+200A (0xE2 0x80
    0x80 to 0x8A), U+2028, U+2029 and U+202F (0xE2 0x80 0xA8, 0xA9, 0xAF),
    U+205F (0xE2 0x81 0x9F) and U+3000 (0xE3 0x80 0x80). *)
Definition isspace3 (c d e : ascii) : bool :=
  (let c := N_of_ascii c in
   let d := N_of_ascii d in
   let e := N_of_ascii e in
   ((c =? 225) && (d =? 154) && (e =? 128))
   || ((c =? 226) && (d =? 128)
       && (((128 <=? e) && (e <=? 138)) || (e =? 168) || (e =? 169) || (e =? 175)))
   || ((c =? 226) && (d =? 129) && (e =? 159))
   || ((c =? 227) && (d =? 128) && (e =? 128)))%N.

(** The bytes left when the white-space characters at the front are taken
    away; [two] and [three] say which two and three bytes are one. *)
Fixpoint lstrip_bytes (two : ascii -> ascii -> bool) (three : ascii -> ascii -> ascii -> bool)
    (l : list ascii) : list ascii :=
  match l with
  | [] => []
  | c :: rest =>
      if isspace c then lstrip_bytes two three rest
      else
        match rest with
        | d :: rest2 =>
            if two c d then lstrip_bytes two three rest2
            else
              match rest2 with
              | e :: rest3 => if three c d e then lstrip_bytes two three rest3 else l
              | [] => l
              end
        | [] => l
        end
  end.

(** [s.lstrip()] *)
Definition lstrip (s : string) : string :=
  string_of_list_ascii (lstrip_bytes isspace2 isspace3 (list_ascii_of_string s)).

(** [s.rstrip()]: the same from the end, where the bytes of a character
    come last byte first. *)
Definition rstrip (s : string) : string :=
  string_of_list_ascii
    (rev (lstrip_bytes (fun d c => isspace2 c d) (fun e d c => isspace3 c d e)
            (rev (list_ascii_of_string s)))).

(** [s.strip()] *)
Definition strip (s : string) : string := rstrip (lstrip s).

(** [sub in s]: [sub] occurs in [s] as a substring. *)
Fixpoint contains (sub s : string) : bool :=
  String.prefix sub s
  || match s with
     | EmptyString => false
     | String _ rest => contains sub rest
     end.

End Py.
Import Py.

(** ** class RollingAudioRecorder *)

Module RollingAudioRecorder.

Record RollingAudioRecorder : Type := mkRecorder {
  output_dir : string;
  num_files : Z;
  duration_seconds : Z;
  sample_rate : Z;
  channels : Z;
  sample_width : Z;
  samples_per_file : Z;
  current_file_index : Z;
  audio_buffer : list (list Z);
  buffer_sample_count : Z
}.

(** One pass through the [with wave.open(filename, 'wb')] block of
    [_write_current_buffer]: the file [buffer_<index>.wav], the header
    fields set, the samples handed to [writeframes], and whether the block
    completed ([wav_ok = false]: it raised, and the warning was printed). *)
Record wav_write : Type := mkWav {
  wav_index : Z;
  wav_nchannels : Z;
  wav_sampwidth : Z;
  wav_framerate : Z;
  wav_frames : list Z;
  wav_ok : bool
}.

Definition __init__ (output_dir : string) (num_files duration_seconds sample_rate channels : Z)
  : RollingAudioRecorder :=
  {| output_dir := output_dir;
     num_files := num_files;
     duration_seconds := duration_seconds;
     sample_rate := sample_rate;
     channels := channels;
     sample_width := 2;
     samples_per_file := sample_rate * duration_seconds;
     current_file_index := 0;
     audio_buffer := [];
     buffer_sample_count := 0 |}.

(** [RollingAudioRecorder()] with the default arguments. *)
Definition default : RollingAudioRecorder :=
  __init__ "./debug_recordings" 10 5 16000 1.

(** The three assignments that end [_write_current_buffer]. *)
Definition rotate (self : RollingAudioRecorder) (index : Z) (buffer : list (list Z)) (count : Z)
  : RollingAudioRecorder :=
  {| output_dir := output_dir self;
     num_files := num_files self;
     duration_seconds := duration_seconds self;
     sample_rate := sample_rate self;
     channels := channels self;
     sample_width := sample_width self;
     samples_per_file := samples_per_file self;
     current_file_index := index;
     audio_buffer := buffer;
     buffer_sample_count := count |}.

(** [io_ok]: whether the file write of this call completes. The exception
    of a failed write is caught inside; the only exception that escapes is
    the [ZeroDivisionError] of [% self.num_files], raised after the write. *)
Definition _write_current_buffer (io_ok : bool) (self : RollingAudioRecorder)
  : list wav_write * result RollingAudioRecorder :=
  match audio_buffer self with
  | [] => ([], Ok self)
  | _ :: _ =>
      let full_audio := concat (audio_buffer self) in
      let audio_to_write := slice_to full_audio (samples_per_file self) in
      let written :=
        {| wav_index := current_file_index self;
           wav_nchannels := channels self;
           wav_sampwidth := sample_width self;
           wav_framerate := sample_rate self;
           wav_frames := audio_to_write;
           wav_ok := io_ok |} in
      if num_files self =? 0 then ([written], Raise ZeroDivisionError)
      else
        let index := (current_file_index self + 1) mod num_files self in
        if samples_per_file self <? len full_audio then
          let remaining_audio := slice_from full_audio (samples_per_file self) in
          ([written], Ok (rotate self index [remaining_audio] (len remaining_audio)))
        else
          ([written], Ok (rotate self index [] 0))
  end.

(** The object after the first two statements of [process_chunk]. *)
Definition appended (self : RollingAudioRecorder) (a : list Z) : RollingAudioRecorder :=
  rotate self (current_file_index self) (audio_buffer self ++ [a])
         (buffer_sample_count self + len a).

Definition process_chunk (io_ok : bool) (self : RollingAudioRecorder) (audio_data : list Byte.byte)
  : list wav_write * result RollingAudioRecorder :=
  match frombuffer audio_data with
  | Raise e => ([], Raise e)
  | Ok audio_array =>
      let self' := appended self audio_array in
      if samples_per_file self' <=? buffer_sample_count self' then
        _write_current_buffer io_ok self'
      else ([], Ok self')
  end.

(** [process_chunk] over a sequence of chunks, each with the outcome of the
    file write it may cause; stops at the first exception. *)
Fixpoint feed (chunks : list (bool * list Byte.byte)) (self : RollingAudioRecorder)
  : list wav_write * result RollingAudioRecorder :=
  match chunks with
  | [] => ([], Ok self)
  | (io_ok, audio_data) :: rest =>
      match process_chunk io_ok self audio_data with
      | (ws, Raise e) => (ws, Raise e)
      | (ws, Ok self') =>
          let '(ws', r) := feed rest self' in (ws ++ ws', r)
      end
  end.

(** The samples of a chunk ([[]] for a chunk [frombuffer] refuses). *)
Definition samples_of (audio_data : list Byte.byte) : list Z :=
  match frombuffer audio_data with
  | Ok a => a
  | Raise _ => []
  end.

(** All the samples of a sequence of chunks, in order. *)
Definition all_samples (chunks : list (bool * list Byte.byte)) : list Z :=
  concat (map (fun c => samples_of (snd c)) chunks).

(** The recorder's data invariant. *)
Definition invariant (self : RollingAudioRecorder) : Prop :=
  buffer_sample_count self = len (concat (audio_buffer self))
  /\ 0 <= current_file_index self < num_files self.

(** The state between two chunks: fewer samples buffered than a file takes. *)
Definition steady (self : RollingAudioRecorder) : Prop :=
  0 < samples_per_file self
  /\ invariant self
  /\ len (concat (audio_buffer self)) < samples_per_file self.

(** A chunk with a whole number of samples, at most [n] of them. *)
Definition small_chunk (n : Z) (c : bool * list Byte.byte) : Prop :=
  Nat.even (length (snd c)) = true /\ len (samples_of (snd c)) <= n.

(** The chunks with every file write failing. *)
Definition all_failing (chunks : list (bool * list Byte.byte)) : list (bool * list Byte.byte) :=
  map (fun c => (false, snd c)) chunks.

End RollingAudioRecorder.

(** ** The outside of the program *)

(** What [Model.predict] returns: a [dict] from model name to score, read
    in iteration order by [prediction.items()]. *)
Definition prediction : Type := list (string * float).

(** One queue element: the [bytes] of one [stream.read]. *)
Definition frame : Type := list Byte.byte.

(** The wake-word model, opaque: [predict] is
    [self.model.predict(audio_array, vad_threshold=0.5)], which may raise and
    may change the model's internal state; [reset] is [self.model.reset()],
    taken not to raise (if it did, [run] would end there, as it does for
    any other error of the loop body). *)
Class Detector (M : Type) : Type := {
  predict : M -> list Z -> result prediction * M;
  reset : M -> M
}.

(** The operating system and the libraries, as far as the program asks them:
    [os.path.exists], [openwakeword.utils.download_models], the constructor
    [Model(wakeword_models=..., inference_framework="onnx")], the builtin
    [float], the outcome of the n-th [subprocess.run] of [mpv] and of the
    n-th file write of the debug recorder. [join_in_time n] is the outcome
    of the [join(timeout=2.0)] that [stop_recording] makes when [mpv] has
    been run [n] times: whether it returns because the worker has left its
    loop, or because the two seconds are over. The program does not look at
    this outcome; the thread it leaves behind differs. *)
Class Platform (M : Type) : Type := {
  path_exists : string -> bool;
  download_models : option (list string) -> result unit;
  Model : option (list string) -> result M;
  float_of_string : string -> result float;
  subprocess_run : nat -> result unit;
  wave_write_ok : nat -> bool;
  join_in_time : nat -> bool
}.

(** ** class WakeWordDetector *)

Module WakeWordDetector.

Import RollingAudioRecorder.

(** The object's fields. [audio_queue] is the content of [Queue(maxsize=100)],
    oldest first; [recording] is the [threading.Event]; [recording_thread]
    names the [Thread] object by its number in the table of threads. The
    fields [format], [audio] and [stream] (PyAudio handles) are left out. *)
Record WakeWordDetector (M : Type) : Type := mkDetector {
  custom_model_path : option string;
  wake_word_models : option (list string);
  video_path : string;
  threshold : float;
  enable_debug_recording : bool;
  debug_recorder : option RollingAudioRecorder;
  sample_rate : Z;
  chunk_size : Z;
  channels : Z;
  audio_queue : list frame;
  recording : bool;
  recording_thread : option nat;
  model : option M
}.
Arguments mkDetector {M}.
Arguments custom_model_path {M}.
Arguments wake_word_models {M}.
Arguments video_path {M}.
Arguments threshold {M}.
Arguments enable_debug_recording {M}.
Arguments debug_recorder {M}.
Arguments sample_rate {M}.
Arguments chunk_size {M}.
Arguments channels {M}.
Arguments audio_queue {M}.
Arguments recording {M}.
Arguments recording_thread {M}.
Arguments model {M}.

(** [maxsize] of [audio_queue]. *)
Definition maxsize : nat := 100.

(** What the main thread prints. *)
Inductive message : Type :=
| MsgCustomModelNotFound (path : string)
| MsgLoadingCustomModel (path : string)
| MsgModelLoaded
| MsgErrorLoadingModel (e : exn)
| MsgDetected (model_name : string) (score : float)
| MsgPlaying (path : string)
| MsgPlaybackCompleted
| MsgMpvNotFound
| MsgErrorPlaying (e : exn)
| MsgListeningAgain
| MsgShuttingDown.

(** What the main thread does to the outside, in order. [Detected] marks the
    entry into the body of [if score > self.threshold]. *)
Inductive op : Type :=
| Downloaded (names : option (list string))
| ModelLoaded (wakeword_models : option (list string))
| Recorded (w : wav_write)
| Scored (audio_array : list Z) (r : result prediction)
| Detected (model_name : string) (score : float)
| StopRecording
| QueueCleared (discarded : list frame)
| ModelReset
| PlayVideo (r : result unit)
| StartRecording
| StreamClosed
| AudioTerminated.

(** The object together with the process around it: [threads] says of each
    thread ever created whether it is alive; [plays] and [writes] count the
    runs of [mpv] and the file writes so far. *)
Record world (M : Type) : Type := mkWorld {
  self : WakeWordDetector M;
  threads : list bool;
  trace : list op;
  stdout : list message;
  plays : nat;
  writes : nat
}.
Arguments mkWorld {M}.
Arguments self {M}.
Arguments threads {M}.
Arguments trace {M}.
Arguments stdout {M}.
Arguments plays {M}.
Arguments writes {M}.

Section Fields.
Context {M : Type}.

Definition set_audio_queue (q : list frame) (s : WakeWordDetector M) : WakeWordDetector M :=
  mkDetector (custom_model_path s) (wake_word_models s) (video_path s) (threshold s)
    (enable_debug_recording s) (debug_recorder s) (sample_rate s) (chunk_size s) (channels s)
    q (recording s) (recording_thread s) (model s).

Definition set_recording (b : bool) (t : option nat) (s : WakeWordDetector M) : WakeWordDetector M :=
  mkDetector (custom_model_path s) (wake_word_models s) (video_path s) (threshold s)
    (enable_debug_recording s) (debug_recorder s) (sample_rate s) (chunk_size s) (channels s)
    (audio_queue s) b t (model s).

Definition set_model (m : option M) (s : WakeWordDetector M) : WakeWordDetector M :=
  mkDetector (custom_model_path s) (wake_word_models s) (video_path s) (threshold s)
    (enable_debug_recording s) (debug_recorder s) (sample_rate s) (chunk_size s) (channels s)
    (audio_queue s) (recording s) (recording_thread s) m.

Definition set_debug_recorder (r : option RollingAudioRecorder) (s : WakeWordDetector M)
  : WakeWordDetector M :=
  mkDetector (custom_model_path s) (wake_word_models s) (video_path s) (threshold s)
    (enable_debug_recording s) r (sample_rate s) (chunk_size s) (channels s)
    (audio_queue s) (recording s) (recording_thread s) (model s).

Definition with_self (f : WakeWordDetector M -> WakeWordDetector M) (w : world M) : world M :=
  mkWorld (f (self w)) (threads w) (trace w) (stdout w) (plays w) (writes w).

Definition with_threads (ts : list bool) (w : world M) : world M :=
  mkWorld (self w) ts (trace w) (stdout w) (plays w) (writes w).

(** Append to the trace. *)
Definition emit (ops : list op) (w : world M) : world M :=
  mkWorld (self w) (threads w) (trace w ++ ops) (stdout w) (plays w) (writes w).

(** [print(...)] *)
Definition say (m : message) (w : world M) : world M :=
  mkWorld (self w) (threads w) (trace w) (stdout w ++ [m]) (plays w) (writes w).

Definition count_play (w : world M) : world M :=
  mkWorld (self w) (threads w) (trace w) (stdout w) (S (plays w)) (writes w).

Definition count_writes (n : nat) (w : world M) : world M :=
  mkWorld (self w) (threads w) (trace w) (stdout w) (plays w) (writes w + n)%nat.

End Fields.

Section Program.
Context {M : Type} {D : Detector M} {P : Platform M}.

(** [os.getenv(key, default)] *)
Definition getenv (environ : gmap string string) (key default : string) : string :=
  match environ !! key with
  | Some v => v
  | None => default
  end.

(** Truth value of [models_override] ([None] or a list). *)
Definition truthy_models (o : option (list string)) : bool :=
  match o with
  | Some (_ :: _) => true
  | _ => false
  end.

(** [WakeWordDetector.__init__]. The only exception it can raise here is the
    one of [float(...)]. The banner it prints and the [os.makedirs] of the
    recorder's constructor are left out. *)
Definition __init__ (environ : gmap string string)
    (models_override : option (list string)) (custom_model_path : option string)
  : result (WakeWordDetector M) :=
  let '(path, models) :=
    if truthy_opt custom_model_path then (custom_model_path, None)
    else if truthy_opt (environ !! "CUSTOM_MODEL_PATH"%string)
    then (environ !! "CUSTOM_MODEL_PATH"%string, None)
    else (None,
          if truthy_models models_override then models_override
          else Some (split "," (getenv environ "WAKE_WORD_MODELS" "hey_jarvis"))) in
  match float_of_string (getenv environ "THRESHOLD" "0.5") with
  | Raise e => Raise e
  | Ok th =>
      let enable :=
        String.eqb (lower (getenv environ "ENABLE_DEBUG_RECORDING" "false")) "true" in
      Ok {| custom_model_path := path;
            wake_word_models := models;
            video_path := getenv environ "VIDEO_PATH" "./video.mp4";
            threshold := th;
            enable_debug_recording := enable;
            debug_recorder := if enable then Some RollingAudioRecorder.default else None;
            sample_rate := 16000;
            chunk_size := 1280;
            channels := 1;
            audio_queue := [];
            recording := false;
            recording_thread := None;
            model := None |}
  end.

(** The world in which a fresh object starts: no thread, nothing done yet. *)
Definition boot (s : WakeWordDetector M) : world M :=
  mkWorld s [] [] [] 0%nat 0%nat.

(** The [except Exception] clause of [initialize_model]. *)
Definition model_error (e : exn) (w : world M) : world M * result bool :=
  if is_Exception e then (say (MsgErrorLoadingModel e) w, Ok false)
  else (w, Raise e).

(** The [else] branch of [initialize_model]: the named models. *)
Definition load_named_models (w : world M) : world M * result bool :=
  let names := wake_word_models (self w) in
  let w := emit [Downloaded names] w in
  match download_models names with
  | Raise e => model_error e w
  | Ok _ =>
      let w := emit [ModelLoaded names] w in
      match Model names with
      | Raise e => model_error e w
      | Ok m => (say MsgModelLoaded (with_self (set_model (Some m)) w), Ok true)
      end
  end.

(** The [if self.custom_model_path] branch. *)
Definition load_custom_model (path : string) (w : world M) : world M * result bool :=
  if negb (path_exists path) then (say (MsgCustomModelNotFound path) w, Ok false)
  else
    let w := say (MsgLoadingCustomModel path) w in
    let w := emit [ModelLoaded (Some [path])] w in
    match Model (Some [path]) with
    | Raise e => model_error e w
    | Ok m => (say MsgModelLoaded (with_self (set_model (Some m)) w), Ok true)
    end.

Definition initialize_model (w : world M) : world M * result bool :=
  match custom_model_path (self w) with
  | Some path => if truthy path then load_custom_model path w else load_named_models w
  | None => load_named_models w
  end.

(** [thread.is_alive()] *)
Definition is_alive (w : world M) (t : nat) : bool :=
  match threads w !! t with
  | Some b => b
  | None => false
  end.

Definition start_recording (w : world M) : world M :=
  let spawn :=
    match recording_thread (self w) with
    | None => true
    | Some t => negb (is_alive w t)
    end in
  if spawn then
    with_threads (threads w ++ [true])
      (with_self (set_recording true (Some (length (threads w)))) w)
  else w.

(** [joined]: whether [join(timeout=2.0)] returns because the worker has
    left its loop ([true]: the turn it was in has ended before the join
    returns, which in a schedule is the last tick of the thread before the
    stop) or because the two seconds are over ([false]: the thread is still
    alive, inside its read, and the event is cleared all the same). *)
Definition stop_recording (joined : bool) (w : world M) : world M :=
  let w := with_self (set_recording false (recording_thread (self w))) w in
  match recording_thread (self w) with
  | Some t => if joined then with_threads (<[t := false]> (threads w)) w else w
  | None => w
  end.

(** The body of the [try] of [_recording_worker]: [read] is what
    [self.stream.read] gives. A [put] on a full queue times out, and its
    exception is swallowed like the one of a failed read. *)
Definition read_and_put (read : result frame) (w : world M) : world M :=
  match read with
  | Ok audio_data =>
      if (length (audio_queue (self w)) <? maxsize)%nat
      then with_self (set_audio_queue (audio_queue (self w) ++ [audio_data])) w
      else w
  | Raise _ => w
  end.

(** The end of one turn of the [while] loop of [_recording_worker] in
    thread [t]. A live thread has found the event set and is inside the
    [try]: its read returns or raises, the frame is put, and then comes the
    test at the top of the loop, which ends the thread when the event has
    been cleared in the meantime. So a frame that is being read when the
    event is cleared is still put. An exception that is no [Exception] ends
    the thread at once. *)
Definition _recording_worker (t : nat) (read : result frame) (w : world M) : world M :=
  if negb (is_alive w t) then w
  else
    let w' := read_and_put read w in
    let leaves :=
      match read with
      | Ok _ => negb (recording (self w))
      | Raise e => negb (is_Exception e) || negb (recording (self w))
      end in
    if leaves then with_threads (<[t := false]> (threads w')) w' else w'.

Definition play_video (w : world M) : world M * result unit :=
  let w := say (MsgPlaying (video_path (self w))) w in
  let r := subprocess_run (plays w) in
  let w := count_play (emit [PlayVideo r] w) in
  match r with
  | Ok _ => (say MsgPlaybackCompleted w, Ok tt)
  | Raise FileNotFoundError => (say MsgMpvNotFound w, Ok tt)
  | Raise e =>
      if is_Exception e then (say (MsgErrorPlaying e) w, Ok tt)
      else (w, Raise e)
  end.

(** The body of [if score > self.threshold] in [run]. It runs after
    [predict] has answered, so [self.model] is set. The [join] inside
    [stop_recording] ends as the platform says; when it has timed out the
    worker is still inside its read while the rest of the branch runs. *)
Definition fire (model_name : string) (score : float) (w : world M) : world M * result unit :=
  let w := say (MsgDetected model_name score) (emit [Detected model_name score] w) in
  let w := emit [StopRecording] (stop_recording (join_in_time (plays w)) w) in
  let w := emit [QueueCleared (audio_queue (self w))] (with_self (set_audio_queue []) w) in
  let w :=
    emit [ModelReset]
      (with_self (fun s => set_model (option_map reset (model s)) s) w) in
  match play_video w with
  | (w, Raise e) => (w, Raise e)
  | (w, Ok _) =>
      let w := say MsgListeningAgain w in
      (emit [StartRecording] (start_recording w), Ok tt)
  end.

(** [for model_name, score in prediction.items(): if score > self.threshold: ...] *)
Fixpoint check_results (items : prediction) (w : world M) : world M * result unit :=
  match items with
  | [] => (w, Ok tt)
  | (model_name, score) :: rest =>
      if (threshold (self w) <? score)%float then
        match fire model_name score w with
        | (w', Ok _) => check_results rest w'
        | (w', Raise e) => (w', Raise e)
        end
      else check_results rest w
  end.

(** Step 2 of the loop body: [if self.debug_recorder: ...process_chunk(audio_data)].
    When [process_chunk] raises, [run] is left, and the recorder is not
    looked at again: it is kept as it was. *)
Definition record_chunk (audio_data : frame) (w : world M) : world M * result unit :=
  match debug_recorder (self w) with
  | None => (w, Ok tt)
  | Some rec =>
      let '(ws, r) := process_chunk (wave_write_ok (writes w)) rec audio_data in
      let w := count_writes (length ws) (emit (map Recorded ws) w) in
      match r with
      | Ok rec' => (with_self (set_debug_recorder (Some rec')) w, Ok tt)
      | Raise e => (w, Raise e)
      end
  end.

(** The body of the inner [try] of [run]. An empty queue is the timeout of
    [get]: it raises [Empty]. *)
Definition loop_body (w : world M) : world M * result unit :=
  match audio_queue (self w) with
  | [] => (w, Raise Empty)
  | audio_data :: rest =>
      let w := with_self (set_audio_queue rest) w in
      match record_chunk audio_data w with
      | (w, Raise e) => (w, Raise e)
      | (w, Ok _) =>
          match frombuffer audio_data with
          | Raise e => (w, Raise e)
          | Ok audio_array =>
              match model (self w) with
              | None => (w, Raise (OtherException "AttributeError"))
              | Some m =>
                  let '(r, m') := predict m audio_array in
                  let w := emit [Scored audio_array r] (with_self (set_model (Some m')) w) in
                  match r with
                  | Raise e => (w, Raise e)
                  | Ok p => check_results p w
                  end
              end
          end
      end
  end.

Definition cleanup (w : world M) : world M :=
  emit [StreamClosed; AudioTerminated]
    (emit [StopRecording] (stop_recording (join_in_time (plays w)) w)).

(** Where the main thread is: in the loop, back from [run] after a
    [KeyboardInterrupt], or out of [run] with an exception. *)
Inductive status : Type :=
| Listening
| Returned
| Crashed (e : exn).

(** A [KeyboardInterrupt]: [except KeyboardInterrupt], then [finally]. *)
Definition interrupt (w : world M) : world M * status :=
  (cleanup (say MsgShuttingDown w), Returned).

(** One turn of [while True], with the handlers around it: [except Empty:
    continue]; [except KeyboardInterrupt]; [finally: self.cleanup()]. *)
Definition iteration (w : world M) : world M * status :=
  match loop_body w with
  | (w', Ok _) => (w', Listening)
  | (w', Raise Empty) => (w', Listening)
  | (w', Raise KeyboardInterrupt) => interrupt w'
  | (w', Raise e) => (cleanup w', Crashed e)
  end.

(** What happens next: thread [t] ends a turn of the worker's loop, the
    main thread runs one turn of its loop, or Ctrl-C reaches the main thread
    between two turns. *)
Inductive tick : Type :=
| Producer (t : nat) (read : result frame)
| Consumer
| Interrupt.

Definition step (k : tick) (w : world M) : world M * status :=
  match k with
  | Producer t read => (_recording_worker t read w, Listening)
  | Consumer => iteration w
  | Interrupt => interrupt w
  end.

(** The loop under a schedule. Once the main thread has left [run] the
    process ends, and the daemon thread with it. *)
Fixpoint exec (schedule : list tick) (w : world M) : world M * status :=
  match schedule with
  | [] => (w, Listening)
  | k :: rest =>
      match step k w with
      | (w', Listening) => exec rest w'
      | (w', st) => (w', st)
      end
  end.

(** [run] from [self.start_recording()] on, that is after the three start-up
    checks have passed. *)
Definition run (schedule : list tick) (w : world M) : world M * status :=
  exec schedule (emit [StartRecording] (start_recording w)).

End Program.

(** The detections in a trace, in order. *)
Definition detections (tr : list op) : list (string * float) :=
  omap (fun o => match o with Detected n s => Some (n, s) | _ => None end) tr.

(** The arrays handed to [predict], in order. *)
Definition scored (tr : list op) : list (list Z) :=
  omap (fun o => match o with Scored a _ => Some a | _ => None end) tr.

(** The number of live threads. *)
Definition alive_count {M} (w : world M) : nat :=
  length (filter (fun b : bool => b = true) (threads w)).

(** Calls on the capture side of the object, in any order. *)
Inductive capture_call : Type :=
| CallStart
| CallStop (joined : bool)
| WorkerTurn (t : nat) (read : result frame).

Definition capture_step {M} (c : capture_call) (w : world M) : world M :=
  match c with
  | CallStart => start_recording w
  | CallStop joined => stop_recording joined w
  | WorkerTurn t read => _recording_worker t read w
  end.

Definition replay {M} (calls : list capture_call) (w : world M) : world M :=
  foldl (fun w c => capture_step c w) w calls.

(** Every live thread is the one [self.recording_thread] names. *)
Definition one_thread {M} (w : world M) : Prop :=
  forall t, threads w !! t = Some true -> recording_thread (self w) = Some t.

(** *** Words for the traces of the loop *)

(** An operation that neither scores a frame nor enters the detection
    branch. *)
Definition quiet (o : op) : Prop :=
  match o with
  | Detected _ _ | Scored _ _ => False
  | _ => True
  end.

Definition not_detected (o : op) : Prop :=
  match o with
  | Detected _ _ => False
  | _ => True
  end.

Definition not_scored (o : op) : Prop :=
  match o with
  | Scored _ _ => False
  | _ => True
  end.

(** The shape of a trace: every [Detected] is followed at once by stop,
    clear, reset, play and restart. In a trace of a run that has ended
    ([final = true]) the last detection may lack the restart, and then
    nothing is scored or detected after it. *)
Inductive protocol : bool -> list op -> Prop :=
| protocol_nil final : protocol final []
| protocol_other final o tr :
    not_detected o -> protocol final tr -> protocol final (o :: tr)
| protocol_fired final n s q r tr :
    protocol final tr ->
    protocol final (Detected n s :: StopRecording :: QueueCleared q :: ModelReset
                      :: PlayVideo r :: StartRecording :: tr)
| protocol_interrupted n s q r tr :
    Forall quiet tr ->
    protocol true (Detected n s :: StopRecording :: QueueCleared q :: ModelReset
                     :: PlayVideo r :: tr).

(** Does the main thread go on after this outcome of [mpv]? *)
Definition goes_on (r : result unit) : bool :=
  match r with
  | Ok _ => true
  | Raise e => is_Exception e
  end.

(** The trace of one pass through the detection branch. *)
Definition fired (n : string) (s : float) (q : list frame) (r : result unit) : list op :=
  Detected n s :: StopRecording :: QueueCleared q :: ModelReset :: PlayVideo r
    :: (if goes_on r then [StartRecording] else []).

(** What [play_video] prints after the call of [mpv]. *)
Definition play_message (r : result unit) : list message :=
  match r with
  | Ok _ => [MsgPlaybackCompleted]
  | Raise FileNotFoundError => [MsgMpvNotFound]
  | Raise e => if is_Exception e then [MsgErrorPlaying e] else []
  end.

(** The labels of a prediction that are above the threshold, in order. *)
Definition above (th : float) (p : list (string * float)) : list (string * float) :=
  filter (fun x => (th <? snd x)%float = true) p.

(** Does the loop go on after this outcome of its body? *)
Definition stays (res : result unit) : bool :=
  match res with
  | Ok _ | Raise Empty => true
  | Raise _ => false
  end.

Definition is_listening (st : status) : bool :=
  match st with
  | Listening => true
  | _ => false
  end.

(** What [cleanup] does, in order. *)
Definition cleanup_ops : list op := [StopRecording; StreamClosed; AudioTerminated].

(** The capture thread is running. *)
Definition capture_running {M} (w : world M) : Prop :=
  recording (self w) = true
  /\ exists t, recording_thread (self w) = Some t /\ is_alive w t = true.

(** The recorder, if there is one, has files to rotate over. *)
Definition recorder_ready {M} (w : world M) : Prop :=
  match debug_recorder (self w) with
  | Some rec => RollingAudioRecorder.num_files rec <> 0
  | None => True
  end.

(** *** Words for the state of a run *)

(** What the capture side consists of: the event, the thread the object
    names, and which threads are alive. *)
Definition capture_state {M} (w : world M) : bool * option nat * list bool :=
  (recording (self w), recording_thread (self w), threads w).

(** The recorder, if there is one, keeps its invariant. *)
Definition recorder_kept {M} (w : world M) : Prop :=
  match debug_recorder (self w) with
  | Some rec => RollingAudioRecorder.invariant rec
  | None => True
  end.

(** The frames the worker turns of a schedule are given by the stream, in
    order (whether or not the thread is still running and the frame finds
    room in the queue). *)
Definition captured (schedule : list tick) : list frame :=
  omap (fun k => match k with Producer _ (Ok f) => Some f | _ => None end) schedule.

(** The passes through the recorder's file-writing block in a trace, in
    order. *)
Definition recorded (tr : list op) : list wav_write :=
  omap (fun o => match o with Recorded f => Some f | _ => None end) tr.


End WakeWordDetector.

(** ** Start-up: the video, the model and the microphone *)

(** PyAudio as [initialize_audio] uses it: the constructor, the number of
    devices, the name of device [i] ([dev_info.get('name')], [None] when the
    entry is missing), and the opening of the input stream on a device
    ([None]: the default device of the system). *)
Class PyAudio : Type := {
  PyAudio_new : result unit;
  get_device_count : result nat;
  get_device_name : nat -> result (option string);
  open_stream : option nat -> result unit
}.

Module Startup.
Import WakeWordDetector.

(** The fields [audio] and [stream] of the object: whether [self.audio] is
    set, and whether [self.stream] is, with the device index it was opened
    on. *)
Record handles : Type := mkHandles {
  audio : bool;
  stream : option (option nat)
}.

(** The fields as [__init__] leaves them. *)
Definition no_handles : handles := mkHandles false None.

(** The command line as [argparse] hands it to [main]: the values of
    [--models] and [--model-path], [None] for an option that is not given. *)
Record arguments : Type := mkArgs {
  models : option string;
  model_path : option string
}.

(** [[m.strip() for m in args.models.split(",")] if args.models else None] *)
Definition models_override (args : arguments) : option (list string) :=
  match models args with
  | Some m => if truthy m then Some (map strip (split "," m)) else None
  | None => None
  end.

(** The operations of the model loading. *)
Definition loading (o : op) : Prop :=
  match o with
  | Downloaded _ | ModelLoaded _ => True
  | _ => False
  end.

Section Program.
Context {M : Type} {D : Detector M} {P : Platform M} {A : PyAudio}.

Definition verify_video_exists (w : world M) : bool :=
  path_exists (video_path (self w)).

(** The [for] loop of [initialize_audio] over the devices [i], ..., [i+n-1].
    A device without a name makes ["USB PnP" in dev_name] raise
    [TypeError]. *)
Fixpoint scan (n i : nat) (target_index : option nat) : result (option nat) :=
  match n with
  | O => Ok target_index
  | S n' =>
      match get_device_name i with
      | Raise e => Raise e
      | Ok None => Raise (OtherException "TypeError")
      | Ok (Some dev_name) =>
          scan n' (S i) (if contains "USB PnP" dev_name then Some i else target_index)
      end
  end.

(** The [except Exception] clause of [initialize_audio]. *)
Definition audio_error (e : exn) (h : handles) : handles * result bool :=
  if is_Exception e then (h, Ok false) else (h, Raise e).

(** [initialize_audio] on a fresh object. The lines it prints are left
    out. *)
Definition initialize_audio : handles * result bool :=
  match PyAudio_new with
  | Raise e => audio_error e no_handles
  | Ok _ =>
      let h := mkHandles true None in
      match get_device_count with
      | Raise e => audio_error e h
      | Ok n =>
          match scan n 0 None with
          | Raise e => audio_error e h
          | Ok target_index =>
              match open_stream target_index with
              | Raise e => audio_error e h
              | Ok _ => (mkHandles true (Some target_index), Ok true)
              end
          end
      end
  end.

(** [run] from its first line: the three checks, each of which ends [run]
    with a plain [return], and then the loop. An exception that is no
    [Exception] leaves [run] at once: the [try] has not been entered. The
    warning [verify_video_exists] prints is left out. *)
Definition run_from_start (schedule : list tick) (w : world M)
  : world M * handles * status :=
  if negb (verify_video_exists w) then (w, no_handles, Returned)
  else
    match initialize_model w with
    | (w, Raise e) => (w, no_handles, Crashed e)
    | (w, Ok false) => (w, no_handles, Returned)
    | (w, Ok true) =>
        match initialize_audio with
        | (h, Raise e) => (w, h, Crashed e)
        | (h, Ok false) => (w, h, Returned)
        | (h, Ok true) =>
            let '(w, st) := run schedule w in (w, h, st)
        end
    end.

(** [main] up to the construction of the detector, on which it then calls
    [run]. *)
Definition main_detector (environ : gmap string string) (args : arguments)
  : result (WakeWordDetector M) :=
  __init__ environ (models_override args) (model_path args).

End Program.

End Startup.

(** ** The inputs of the scenarios *)

Module Scenarios.
Import WakeWordDetector.

(** One chunk of four samples. *)
Definition four_samples : list Byte.byte :=
  [Byte.x01; Byte.x00; Byte.x02; Byte.x00; Byte.x03; Byte.x00; Byte.x04; Byte.x00].

(** Two chunks of one sample each, both written without error. *)
Definition two_chunks : list (bool * list Byte.byte) :=
  [(true, [Byte.x05; Byte.x00]); (true, [Byte.x06; Byte.x00])].

(** A frame of one sample, the sample being the byte given. *)
Definition frame_of (b : Byte.byte) : frame := [b; Byte.x00].

(** The score the model "alpha" gives each of the frames of the scenario. *)
Definition alpha_score (a : list Z) : float :=
  match a with
  | [1] => 0.2
  | [2] => 0.6
  | [3] => 0.9
  | [4] => 0.1
  | [5] => 0.5
  | _ => 0
  end%float.

(** One model, "alpha"; the score depends on the frame alone. *)
Definition alpha_detector : Detector unit :=
  {| predict := fun m a => (Ok [("alpha"%string, alpha_score a)], m);
     reset := fun m => m |}.

(** Two models, both above 0.5 on every frame. *)
Definition two_detector : Detector unit :=
  {| predict := fun m a => (Ok [("alpha"%string, 0.7%float); ("beta"%string, 0.8%float)], m);
     reset := fun m => m |}.

(** A model whose [predict] raises on the frame [[2]]. *)
Definition failing_detector : Detector unit :=
  {| predict := fun m a =>
       match a with
       | [2] => (Raise (OtherException "RuntimeError"), m)
       | _ => (Ok [("alpha"%string, alpha_score a)], m)
       end;
     reset := fun m => m |}.

(** A platform on which everything succeeds: every path exists, every model
    loads, the threshold reads as 0.5, [mpv] plays, files are written. *)
Definition plain_platform : Platform unit :=
  {| path_exists := fun _ => true;
     download_models := fun _ => Ok tt;
     Model := fun _ => Ok tt;
     float_of_string := fun _ => Ok 0.5%float;
     subprocess_run := fun _ => Ok tt;
     wave_write_ok := fun _ => true;
     join_in_time := fun _ => true |}.


(** The world after [WakeWordDetector(models_override=names)] and
    [initialize_model()], with an empty environment. *)
Definition started (P : Platform unit) (names : list string) : world unit :=
  match __init__ (P := P) ∅ (Some names) None with
  | Ok s => fst (initialize_model (P := P) (boot s))
  | Raise _ => boot (mkDetector None None "" 0%float false None 0 0 0 [] false None None)
  end.

(** The same world with one frame waiting in the queue. *)
Definition waiting (P : Platform unit) (names : list string) (f : frame) : world unit :=
  with_self (set_audio_queue [f]) (started P names).





(** A platform on which no path exists. *)
Definition no_video : Platform unit :=
  {| path_exists := fun _ => false;
     download_models := fun _ => Ok tt;
     Model := fun _ => Ok tt;
     float_of_string := fun _ => Ok 0.5%float;
     subprocess_run := fun _ => Ok tt;
     wave_write_ok := fun _ => true;
     join_in_time := fun _ => true |}.

(** The value [alpha, beta] of [--models] with a no-break space (U+00A0)
    before the comma. *)
Definition models_flag : string :=
  ("alpha" +:+ String (ascii_of_nat 194) (String (ascii_of_nat 160) EmptyString)
   +:+ ", beta")%string.

(** The names of three input devices. *)
Definition device_names (i : nat) : string :=
  nth i ["HDA Intel PCH"; "USB PnP Audio Device"; "USB PnP Sound Device"]%string
      "default"%string.

(** Three input devices, two of them USB microphones; every call works. *)
Definition three_devices : PyAudio :=
  {| PyAudio_new := Ok tt;
     get_device_count := Ok 3%nat;
     get_device_name := fun i => Ok (Some (device_names i));
     open_stream := fun _ => Ok tt |}.

(** The same world with a debug recorder of three files of two samples. *)
Definition taping (P : Platform unit) (names : list string) (f : frame) : world unit :=
  with_self
    (set_debug_recorder (Some (RollingAudioRecorder.__init__ "./debug_recordings" 3 1 2 1)))
    (waiting P names f).

(** The four frames are captured before the main thread looks at the queue. *)
Definition queued_schedule : list tick :=
  [Producer 0 (Ok (frame_of Byte.x01)); Producer 0 (Ok (frame_of Byte.x02));
   Producer 0 (Ok (frame_of Byte.x03)); Producer 0 (Ok (frame_of Byte.x04));
   Consumer; Consumer; Consumer; Consumer].

(** Each frame is captured and then scored before the next one arrives;
    every detection replaces the capture thread by a new one. *)
Definition live_schedule : list tick :=
  [Producer 0 (Ok (frame_of Byte.x01)); Consumer;
   Producer 0 (Ok (frame_of Byte.x02)); Consumer;
   Producer 1 (Ok (frame_of Byte.x03)); Consumer;
   Producer 2 (Ok (frame_of Byte.x04)); Consumer].

End Scenarios.

(* ================================================================= *)
(** * Part II: theorems *)
(* ================================================================= *)

(** ** Decoding a chunk *)

Lemma frombuffer_parity (d : list Byte.byte) :
  (Nat.even (length d) = true ->
     exists a, frombuffer d = Ok a /\ length d = (2 * length a)%nat)
  /\ (Nat.even (length d) = false -> frombuffer d = Raise ValueError).
Proof.
  assert (H : forall d : list Byte.byte,
    ((Nat.even (length d) = true ->
        exists a, frombuffer d = Ok a /\ length d = (2 * length a)%nat)
     /\ (Nat.even (length d) = false -> frombuffer d = Raise ValueError))
    /\ forall x : Byte.byte,
       ((Nat.even (length (x :: d)) = true ->
          exists a, frombuffer (x :: d) = Ok a /\ length (x :: d) = (2 * length a)%nat)
        /\ (Nat.even (length (x :: d)) = false -> frombuffer (x :: d) = Raise ValueError))).
  { clear d. induction d as [|y d [IH1 IH2]].
    - split; [split|intros x; split]; cbn; try discriminate; eauto.
    - split; [apply IH2|].
      intros x. destruct IH1 as [Heven Hodd]. split.
      + intros He. change (Nat.even (length d) = true) in He.
        destruct (Heven He) as (a & Ha & Hl).
        exists (int16_of_bytes x y :: a). cbn [frombuffer]. rewrite Ha.
        split; [reflexivity|]. cbn [length]. lia.
      + intros Ho. change (Nat.even (length d) = false) in Ho.
        cbn [frombuffer]. now rewrite (Hodd Ho). }
  apply H.
Qed.

Lemma frombuffer_even (d : list Byte.byte) :
  Nat.even (length d) = true -> frombuffer d = Ok (RollingAudioRecorder.samples_of d).
Proof.
  intros He. destruct (proj1 (frombuffer_parity d) He) as (a & Ha & _).
  unfold RollingAudioRecorder.samples_of. now rewrite Ha.
Qed.

(** ** The debug recorder *)

Module RecorderFacts.
Import RollingAudioRecorder Scenarios.

Lemma len_app {A} (l k : list A) : len (l ++ k) = len l + len k.
Proof. unfold len. rewrite length_app. lia. Qed.

Lemma len_nonneg {A} (l : list A) : 0 <= len l.
Proof. unfold len. lia. Qed.

Lemma concat_snoc {A} (ls : list (list A)) (a : list A) :
  concat (ls ++ [a]) = concat ls ++ a.
Proof. rewrite concat_app. cbn. now rewrite app_nil_r. Qed.

Lemma slice_to_from {A} (l : list A) (n : Z) : slice_to l n ++ slice_from l n = l.
Proof. unfold slice_to, slice_from. destruct (0 <=? n); apply take_drop. Qed.

(** What [_write_current_buffer] does to a buffer that is not empty, when
    there is at least one file to rotate over. *)
Lemma write_nonempty (io_ok : bool) (self : RollingAudioRecorder) :
  audio_buffer self <> [] -> num_files self <> 0 ->
  let full := concat (audio_buffer self) in
  let rest := slice_from full (samples_per_file self) in
  _write_current_buffer io_ok self =
    ([mkWav (current_file_index self) (channels self) (sample_width self)
            (sample_rate self) (slice_to full (samples_per_file self)) io_ok],
     Ok (rotate self ((current_file_index self + 1) mod num_files self)
           (if samples_per_file self <? len full then [rest] else [])
           (if samples_per_file self <? len full then len rest else 0))).
Proof.
  intros Hne Hnf. unfold _write_current_buffer.
  destruct (audio_buffer self) as [|b bs] eqn:Hb; [congruence|].
  apply Z.eqb_neq in Hnf. rewrite Hnf.
  now destruct (samples_per_file self <? len (concat (b :: bs))).
Qed.

Lemma write_preserves (io_ok : bool) (self self' : RollingAudioRecorder) ws :
  invariant self -> _write_current_buffer io_ok self = (ws, Ok self') -> invariant self'.
Proof.
  intros [Hc Hi] Hw.
  destruct (audio_buffer self) as [|b bs] eqn:Hb.
  - unfold _write_current_buffer in Hw. rewrite Hb in Hw.
    injection Hw as _ <-. unfold invariant. rewrite Hb. now split.
  - rewrite write_nonempty in Hw by (rewrite ?Hb; first [discriminate | lia]).
    injection Hw as _ <-. split; cbn.
    + destruct (samples_per_file self <? _); cbn; [now rewrite app_nil_r|reflexivity].
    + apply Z.mod_pos_bound. lia.
Qed.

Lemma process_chunk_odd (io_ok : bool) (self : RollingAudioRecorder) (data : list Byte.byte) :
  Nat.even (length data) = false -> process_chunk io_ok self data = ([], Raise ValueError).
Proof.
  intros Ho. unfold process_chunk.
  now rewrite (proj2 (frombuffer_parity data) Ho).
Qed.

Lemma appended_invariant (self : RollingAudioRecorder) (a : list Z) :
  invariant self -> invariant (appended self a).
Proof.
  intros [Hc Hi]. split; cbn; [|exact Hi].
  rewrite concat_snoc, len_app. lia.
Qed.

Lemma process_chunk_even (io_ok : bool) (self : RollingAudioRecorder) (data : list Byte.byte) :
  Nat.even (length data) = true ->
  process_chunk io_ok self data =
    if samples_per_file self <=? buffer_sample_count self + len (samples_of data)
    then _write_current_buffer io_ok (appended self (samples_of data))
    else ([], Ok (appended self (samples_of data))).
Proof.
  intros He. unfold process_chunk. now rewrite (frombuffer_even data He).
Qed.

Lemma process_chunk_returns (io_ok : bool) (self : RollingAudioRecorder) (data : list Byte.byte) :
  invariant self -> Nat.even (length data) = true ->
  exists ws self', process_chunk io_ok self data = (ws, Ok self') /\ invariant self'.
Proof.
  intros Hinv He. rewrite process_chunk_even by exact He.
  pose proof (appended_invariant self (samples_of data) Hinv) as Hinv'.
  destruct (samples_per_file self <=? _); [|eauto].
  assert (Hne : audio_buffer (appended self (samples_of data)) <> [])
    by (cbn; now destruct (audio_buffer self)).
  assert (Hnf : num_files (appended self (samples_of data)) <> 0)
    by (cbn; destruct Hinv as [_ Hi]; lia).
  pose proof (write_nonempty io_ok _ Hne Hnf) as Hw. cbv zeta in Hw.
  rewrite Hw. eexists _, _. split; [reflexivity|].
  exact (write_preserves io_ok _ _ _ Hinv' Hw).
Qed.

(** C10. The recorder's invariant ([buffer_sample_count] is the number of
    samples held in [audio_buffer], and [current_file_index] lies in
    [0, num_files)) holds after construction with at least one file, and
    every [process_chunk] call keeps it: on a whole number of samples the
    call returns and the invariant holds again, on an odd number of bytes
    it raises before it touches the object. [_write_current_buffer] on an
    empty [audio_buffer] changes nothing and writes nothing. *)
Theorem recorder_invariant (dir : string) (nf d sr ch : Z) :
  0 < nf ->
  invariant (__init__ dir nf d sr ch)
  /\ (forall io_ok self data,
        invariant self -> Nat.even (length data) = true ->
        exists ws self', process_chunk io_ok self data = (ws, Ok self') /\ invariant self')
  /\ (forall io_ok self data,
        Nat.even (length data) = false ->
        process_chunk io_ok self data = ([], Raise ValueError))
  /\ (forall io_ok self,
        audio_buffer self = [] -> _write_current_buffer io_ok self = ([], Ok self)).
Proof.
  intros Hnf. repeat split.
  - cbn. lia.
  - cbn. exact Hnf.
  - intros io_ok self data. apply process_chunk_returns.
  - intros io_ok self data. apply process_chunk_odd.
  - intros io_ok self Hb. unfold _write_current_buffer. now rewrite Hb.
Qed.

Lemma recorder_invariant_witness : 0 < 10 /\ invariant default.
Proof.
  assert (H : 0 < 10) by lia.
  exact (conj H (proj1 (recorder_invariant "./debug_recordings" 10 5 16000 1 H))).
Defined.

(** *** Feeding chunks that are at most one file long *)

Lemma frames_total (n : Z) (ws : list wav_write) :
  Forall (fun w => len (wav_frames w) = n) ws ->
  len (concat (map wav_frames ws)) = len ws * n.
Proof.
  induction 1 as [|w ws Hw _ IH]; [reflexivity|].
  cbn [map concat]. rewrite len_app, IH, Hw. unfold len. cbn [length]. lia.
Qed.

Lemma write_appended (io_ok : bool) (self : RollingAudioRecorder) (a : list Z) :
  num_files self <> 0 ->
  let full := concat (audio_buffer self) ++ a in
  let rest := slice_from full (samples_per_file self) in
  _write_current_buffer io_ok (appended self a) =
    ([mkWav (current_file_index self) (channels self) (sample_width self)
            (sample_rate self) (slice_to full (samples_per_file self)) io_ok],
     Ok (rotate self ((current_file_index self + 1) mod num_files self)
           (if samples_per_file self <? len full then [rest] else [])
           (if samples_per_file self <? len full then len rest else 0))).
Proof.
  intros Hnf. cbv zeta. rewrite write_nonempty.
  - cbn. now rewrite concat_snoc.
  - cbn. now destruct (audio_buffer self).
  - exact Hnf.
Qed.

Lemma process_chunk_steady (io_ok : bool) (self : RollingAudioRecorder) (data : list Byte.byte) :
  steady self -> small_chunk (samples_per_file self) (io_ok, data) ->
  exists ws self',
    process_chunk io_ok self data = (ws, Ok self')
    /\ steady self'
    /\ num_files self' = num_files self
    /\ samples_per_file self' = samples_per_file self
    /\ concat (map wav_frames ws) ++ concat (audio_buffer self')
       = concat (audio_buffer self) ++ samples_of data
    /\ Forall (fun w => len (wav_frames w) = samples_per_file self
                        /\ wav_index w = current_file_index self
                        /\ wav_ok w = io_ok) ws
    /\ (length ws <= 1)%nat
    /\ current_file_index self' = (current_file_index self + len ws) mod num_files self.
Proof.
  intros (Hspf & Hinv & Hlt) [He Hle]. cbn [snd] in He, Hle.
  pose proof Hinv as [Hc Hi].
  set (a := samples_of data) in *.
  rewrite process_chunk_even by exact He. fold a.
  pose proof (len_nonneg a) as Ha.
  assert (Hmod : 0 <= (current_file_index self + 1) mod num_files self < num_files self)
    by (apply Z.mod_pos_bound; lia).
  destruct (Z.leb_spec (samples_per_file self) (buffer_sample_count self + len a))
    as [Hfull|Hroom].
  - rewrite write_appended by lia. cbv zeta.
    set (full := concat (audio_buffer self) ++ a) in *.
    assert (Hlen : len full = buffer_sample_count self + len a)
      by (unfold full; rewrite len_app; lia).
    assert (Htake : len (slice_to full (samples_per_file self)) = samples_per_file self).
    { unfold slice_to. destruct (Z.leb_spec 0 (samples_per_file self)); [|lia].
      unfold len in *. rewrite length_take. lia. }
    assert (Hdrop : len (slice_from full (samples_per_file self))
                    = len full - samples_per_file self).
    { unfold slice_from. destruct (Z.leb_spec 0 (samples_per_file self)); [|lia].
      unfold len in *. rewrite length_drop. lia. }
    eexists _, _. split; [reflexivity|].
    destruct (Z.ltb_spec (samples_per_file self) (len full)) as [Hmore|Hexact].
    + split; [|split; [|split; [|split; [|split; [|split]]]]]; cbn.
      * split; [exact Hspf|]. split; [split; cbn; [now rewrite app_nil_r|exact Hmod]|].
        cbn. rewrite app_nil_r, Hdrop. lia.
      * reflexivity.
      * reflexivity.
      * rewrite !app_nil_r. apply slice_to_from.
      * repeat constructor. exact Htake.
      * lia.
      * reflexivity.
    + split; [|split; [|split; [|split; [|split; [|split]]]]]; cbn.
      * split; [exact Hspf|]. split; [split; cbn; [reflexivity|exact Hmod]|].
        cbn. exact Hspf.
      * reflexivity.
      * reflexivity.
      * rewrite !app_nil_r.
        rewrite <- (slice_to_from full (samples_per_file self)) at 2.
        assert (Hnil : slice_from full (samples_per_file self) = []).
        { apply length_zero_iff_nil. unfold len in *. lia. }
        now rewrite Hnil, app_nil_r.
      * repeat constructor. exact Htake.
      * lia.
      * reflexivity.
  - eexists [], _. split; [reflexivity|].
    split; [|split; [|split; [|split; [|split; [|split]]]]]; cbn.
    + split; [exact Hspf|]. split; [apply appended_invariant; exact Hinv|].
      cbn. rewrite concat_snoc, len_app. lia.
    + reflexivity.
    + reflexivity.
    + now rewrite concat_snoc.
    + constructor.
    + lia.
    + rewrite Z.add_0_r. symmetry. now apply Z.mod_small.
Qed.

Lemma feed_cons (io_ok : bool) (data : list Byte.byte) rest self ws self' ws' r :
  process_chunk io_ok self data = (ws, Ok self') ->
  feed rest self' = (ws', r) ->
  feed ((io_ok, data) :: rest) self = (ws ++ ws', r).
Proof. intros H1 H2. cbn [feed]. now rewrite H1, H2. Qed.

Lemma feed_steady (chunks : list (bool * list Byte.byte)) :
  forall self,
    steady self ->
    Forall (small_chunk (samples_per_file self)) chunks ->
    exists ws self',
      feed chunks self = (ws, Ok self')
      /\ steady self'
      /\ num_files self' = num_files self
      /\ samples_per_file self' = samples_per_file self
      /\ concat (map wav_frames ws) ++ concat (audio_buffer self')
         = concat (audio_buffer self) ++ all_samples chunks
      /\ Forall (fun w => len (wav_frames w) = samples_per_file self) ws
      /\ (forall i w, ws !! i = Some w ->
            wav_index w = (current_file_index self + Z.of_nat i) mod num_files self)
      /\ current_file_index self' = (current_file_index self + len ws) mod num_files self
      /\ (Forall (fun c => fst c = true) chunks -> Forall (fun w => wav_ok w = true) ws).
Proof.
  induction chunks as [|[io_ok data] rest IH]; intros self Hst Hall.
  - exists [], self. cbn. rewrite !app_nil_r, Z.add_0_r.
    destruct Hst as (? & [? ?] & ?).
    repeat split; try assumption; try constructor; try lia.
    + intros i w Hi. now rewrite lookup_nil in Hi.
    + symmetry. apply Z.mod_small. lia.
  - inversion Hall as [|c cs Hsmall Hrest]; subst.
    destruct (process_chunk_steady io_ok self data Hst Hsmall)
      as (ws1 & self1 & Hp & Hst1 & Hnf1 & Hspf1 & Hcat1 & Hall1 & Hlen1 & Hidx1).
    rewrite <- Hspf1 in Hrest.
    destruct (IH self1 Hst1 Hrest)
      as (ws2 & self2 & Hf & Hst2 & Hnf2 & Hspf2 & Hcat2 & Hall2 & Hat2 & Hidx2 & Hok2).
    exists (ws1 ++ ws2), self2.
    assert (Hi : 0 <= current_file_index self < num_files self) by apply Hst.
    split; [exact (feed_cons _ _ _ _ _ _ _ _ Hp Hf)|].
    split; [exact Hst2|]. split; [congruence|]. split; [congruence|].
    split; [|split; [|split; [|split]]].
    + rewrite map_app, concat_app, <- app_assoc, Hcat2, app_assoc, Hcat1.
      unfold all_samples. cbn [map concat snd]. now rewrite app_assoc.
    + apply Forall_app. split.
      * eapply Forall_impl; [exact Hall1|]. now intros w (? & _).
      * eapply Forall_impl; [exact Hall2|]. intros w Hw. congruence.
    + intros i w Hlook. apply lookup_app_Some in Hlook as [Hl|[Hge Hr]].
      * assert (i = 0%nat) as -> by (apply lookup_lt_Some in Hl; lia).
        destruct (Forall_lookup_1 _ _ _ _ Hall1 Hl) as (_ & Hw & _).
        rewrite Hw, Z.add_0_r. symmetry. now apply Z.mod_small.
      * rewrite (Hat2 _ _ Hr), Hidx1, Hnf1, Zplus_mod_idemp_l. f_equal. unfold len. lia.
    + rewrite Hidx2, Hidx1, Hnf1, Zplus_mod_idemp_l. f_equal.
      unfold len. rewrite length_app. lia.
    + intros Hok. inversion Hok as [|c cs Hc Hcs]; subst. cbn [fst] in Hc. subst io_ok.
      apply Forall_app. split.
      * eapply Forall_impl; [exact Hall1|]. now intros w (_ & _ & ?).
      * now apply Hok2.
Qed.

(** C6, as the code has it. Start from a fresh recorder with at least one
    file and a positive file length; feed it chunks of whole samples, none
    longer than one file, that total exactly [k] files. Then [feed] returns,
    and exactly [k] writes were made, each of exactly [samples_per_file]
    samples; the i-th went to file [i mod num_files] and the index ends at
    [k mod num_files]; the files, read in order, are the samples fed (none
    lost, none repeated), and nothing is left in the buffer. A write is
    completed whenever the file system lets it. *)
Theorem feed_whole_files (dir : string) (nf d sr ch : Z)
    (chunks : list (bool * list Byte.byte)) (k : Z) :
  0 < nf ->
  0 < sr * d ->
  Forall (small_chunk (sr * d)) chunks ->
  len (all_samples chunks) = k * (sr * d) ->
  exists ws self',
    feed chunks (__init__ dir nf d sr ch) = (ws, Ok self')
    /\ len ws = k
    /\ Forall (fun w => len (wav_frames w) = sr * d) ws
    /\ (forall i w, ws !! i = Some w -> wav_index w = Z.of_nat i mod nf)
    /\ current_file_index self' = k mod nf
    /\ concat (map wav_frames ws) = all_samples chunks
    /\ concat (audio_buffer self') = []
    /\ buffer_sample_count self' = 0
    /\ (Forall (fun c => fst c = true) chunks -> Forall (fun w => wav_ok w = true) ws).
Proof.
  intros Hnf Hspf Hall Htotal.
  assert (Hst : steady (__init__ dir nf d sr ch)).
  { split; [exact Hspf|]. split; [split; cbn; [reflexivity|lia]|]. cbn. exact Hspf. }
  destruct (feed_steady chunks _ Hst Hall)
    as (ws & self' & Hf & (_ & [Hc' _] & Hlt') & _ & Hspf' & Hcat & Hlen & Hat & Hidx & Hok).
  cbn [__init__ audio_buffer samples_per_file current_file_index num_files concat app] in *.
  pose proof (frames_total _ _ Hlen) as Hsum.
  assert (Hbal : len ws * (sr * d) + len (concat (audio_buffer self')) = k * (sr * d))
    by (rewrite <- Hsum, <- len_app, Hcat; exact Htotal).
  pose proof (len_nonneg (concat (audio_buffer self'))) as Hb0.
  pose proof (len_nonneg ws) as Hw0.
  rewrite Hspf' in Hlt'.
  assert (Hk : len ws = k) by nia.
  assert (Hempty : concat (audio_buffer self') = []).
  { apply length_zero_iff_nil. unfold len in *. nia. }
  exists ws, self'. rewrite Hempty, app_nil_r in Hcat.
  repeat split; try assumption.
  - rewrite <- Hk. exact Hidx.
  - rewrite Hc', Hempty. reflexivity.
Qed.

(** When a single chunk holds two files' worth of samples (here: files of 2
    samples, one chunk of 4), one file is written, not two: the second half
    stays in the buffer. *)
Lemma feed_large_chunk :
  let r0 := __init__ "./debug_recordings" 3 1 2 1 in
  let out := feed [(true, four_samples)] r0 in
  samples_per_file r0 = 2
  /\ len (all_samples [(true, four_samples)]) = 2 * samples_per_file r0
  /\ map wav_frames (fst out) = [[1; 2]]
  /\ length (fst out) <> 2%nat
  /\ (exists self', snd out = Ok self' /\ audio_buffer self' = [[3; 4]]).
Proof.
  cbv zeta. split; [reflexivity|]. split; [reflexivity|]. split; [reflexivity|].
  split; [cbn; discriminate|].
  eexists. split; reflexivity.
Qed.

Lemma feed_whole_files_witness :
  exists ws self',
    feed two_chunks (__init__ "./debug_recordings" 3 1 2 1) = (ws, Ok self')
    /\ len ws = 1.
Proof.
  assert (H1 : 0 < 3) by lia.
  assert (H2 : 0 < 2 * 1) by lia.
  assert (H3 : Forall (small_chunk (2 * 1)) two_chunks).
  { repeat constructor; cbn; discriminate. }
  assert (H4 : len (all_samples two_chunks) = 1 * (2 * 1)) by reflexivity.
  destruct (feed_whole_files "./debug_recordings" 3 1 2 1 two_chunks 1 H1 H2 H3 H4)
    as (ws & self' & Hf & Hk & _).
  exists ws, self'. split; assumption.
Defined.

End RecorderFacts.

(** ** Starting and stopping the capture thread *)

Module CaptureFacts.
Import WakeWordDetector.

Section Capture.
Context {M : Type}.
Implicit Types (w : world M) (l : list bool).

Lemma no_thread_alive l :
  (forall i, l !! i <> Some true) -> filter (fun b : bool => b = true) l = [].
Proof.
  induction l as [|b l IH]; intros H; [reflexivity|].
  destruct b; [now destruct (H 0%nat)|].
  rewrite filter_cons_False by discriminate.
  apply IH. intros i. exact (H (S i)).
Qed.

Lemma single_thread_alive l : forall t,
  (forall i, l !! i = Some true -> i = t) -> l !! t = Some true ->
  length (filter (fun b : bool => b = true) l) = 1%nat.
Proof.
  induction l as [|b l IH]; intros t Huniq Ht; [now rewrite lookup_nil in Ht|].
  destruct t as [|t].
  - cbn in Ht. injection Ht as ->.
    rewrite filter_cons_True by reflexivity. cbn [length]. f_equal.
    rewrite no_thread_alive; [reflexivity|].
    intros i Hi. specialize (Huniq (S i) Hi). discriminate.
  - destruct b; [specialize (Huniq 0%nat eq_refl); discriminate|].
    rewrite filter_cons_False by discriminate.
    apply (IH t); [|exact Ht].
    intros i Hi. specialize (Huniq (S i) Hi). now injection Huniq.
Qed.

Lemma is_alive_true w t : is_alive w t = true <-> threads w !! t = Some true.
Proof.
  unfold is_alive. destruct (threads w !! t) as [[]|]; split; congruence.
Qed.

Lemma lookup_killed l t i : <[t := false]> l !! i = Some true -> l !! i = Some true.
Proof.
  destruct (decide (t = i)) as [->|Hne].
  - destruct (decide (i < length l)%nat) as [Hlt|Hge].
    + rewrite list_lookup_insert_eq by exact Hlt. discriminate.
    + rewrite list_insert_ge by lia. trivial.
  - now rewrite list_lookup_insert_ne.
Qed.

Lemma start_recording_spawn w :
  match recording_thread (self w) with
  | None => true
  | Some t => negb (is_alive w t)
  end = true ->
  start_recording w =
    with_threads (threads w ++ [true])
      (with_self (set_recording true (Some (length (threads w)))) w).
Proof. intros H. unfold start_recording. now rewrite H. Qed.

Lemma start_recording_running w t :
  recording_thread (self w) = Some t -> is_alive w t = true -> start_recording w = w.
Proof. intros Ht Ha. unfold start_recording. now rewrite Ht, Ha. Qed.

(** A second [start_recording] finds the thread alive. *)
Lemma start_recording_twice w : start_recording (start_recording w) = start_recording w.
Proof.
  destruct (match recording_thread (self w) with
            | None => true
            | Some t => negb (is_alive w t)
            end) eqn:Hspawn.
  - rewrite (start_recording_spawn w Hspawn).
    apply (start_recording_running _ (length (threads w))); [reflexivity|].
    apply is_alive_true. cbn. now rewrite lookup_app_r, Nat.sub_diag by lia.
  - unfold start_recording at 2. rewrite Hspawn.
    unfold start_recording. now rewrite Hspawn.
Qed.

Lemma one_thread_start w : one_thread w -> one_thread (start_recording w).
Proof.
  intros Hw. unfold start_recording.
  destruct (match recording_thread (self w) with
            | None => true
            | Some t => negb (is_alive w t)
            end) eqn:Hspawn; [|exact Hw].
  intros t Ht. cbn in *.
  apply lookup_app_Some in Ht as [Hold|[Hge Hnew]].
  - specialize (Hw t Hold). rewrite Hw in Hspawn.
    apply is_alive_true in Hold. now rewrite Hold in Hspawn.
  - f_equal. apply lookup_lt_Some in Hnew. cbn in Hnew. lia.
Qed.

Lemma one_thread_stop joined w : one_thread w -> one_thread (stop_recording joined w).
Proof.
  intros Hw t. unfold stop_recording. cbn.
  destruct (recording_thread (self w)) as [rt|] eqn:Hrt; [destruct joined|]; cbn;
    rewrite ?Hrt; intros Ht; try apply lookup_killed in Ht;
    rewrite <- Hrt; now apply Hw.
Qed.

(** The [try] block of the worker touches the queue only. *)
Lemma read_and_put_keeps read w :
  threads (read_and_put read w) = threads w
  /\ recording (self (read_and_put read w)) = recording (self w)
  /\ recording_thread (self (read_and_put read w)) = recording_thread (self w)
  /\ debug_recorder (self (read_and_put read w)) = debug_recorder (self w)
  /\ model (self (read_and_put read w)) = model (self w)
  /\ trace (read_and_put read w) = trace w
  /\ plays (read_and_put read w) = plays w
  /\ (audio_queue (self (read_and_put read w)) = audio_queue (self w)
      \/ exists f, read = Ok f
           /\ (length (audio_queue (self w)) < maxsize)%nat
           /\ audio_queue (self (read_and_put read w)) = audio_queue (self w) ++ [f]).
Proof.
  unfold read_and_put. destruct read as [f|e]; [|auto 10].
  destruct (Nat.ltb_spec (length (audio_queue (self w))) maxsize); [|auto 10].
  cbn. do 7 (split; [reflexivity|]). right. eauto.
Qed.

(** A turn of the worker leaves the threads as they are or ends thread
    [t], and touches nothing else but the queue. *)
Lemma worker_keeps t read w :
  (threads (_recording_worker t read w) = threads w
   \/ threads (_recording_worker t read w) = <[t := false]> (threads w))
  /\ recording (self (_recording_worker t read w)) = recording (self w)
  /\ recording_thread (self (_recording_worker t read w)) = recording_thread (self w)
  /\ debug_recorder (self (_recording_worker t read w)) = debug_recorder (self w)
  /\ model (self (_recording_worker t read w)) = model (self w)
  /\ trace (_recording_worker t read w) = trace w
  /\ plays (_recording_worker t read w) = plays w
  /\ (audio_queue (self (_recording_worker t read w)) = audio_queue (self w)
      \/ exists f, read = Ok f
           /\ (length (audio_queue (self w)) < maxsize)%nat
           /\ audio_queue (self (_recording_worker t read w)) = audio_queue (self w) ++ [f]).
Proof.
  unfold _recording_worker. destruct (negb (is_alive w t)); [auto 10|].
  destruct (read_and_put_keeps read w) as (Hths & Hr & Hrt & Hd & Hm & Htr & Hpl & Hq).
  cbv zeta.
  destruct (match read with
            | Ok _ => negb (recording (self w))
            | Raise e => negb (is_Exception e) || negb (recording (self w))
            end); cbn; rewrite ?Hths; auto 10.
Qed.

Lemma one_thread_worker t read w : one_thread w -> one_thread (_recording_worker t read w).
Proof.
  intros Hw i Hi.
  destruct (worker_keeps t read w) as ([Hths|Hths] & _ & Hrt & _).
  - rewrite Hrt. apply Hw. now rewrite <- Hths.
  - rewrite Hrt. apply Hw. rewrite Hths in Hi. now apply lookup_killed in Hi.
Qed.

Lemma one_thread_replay calls : forall w, one_thread w -> one_thread (replay calls w).
Proof.
  induction calls as [|c calls IH]; intros w Hw; [exact Hw|].
  cbn. apply IH. destruct c; cbn.
  - now apply one_thread_start.
  - now apply one_thread_stop.
  - now apply one_thread_worker.
Qed.

Lemma one_thread_boot (s : WakeWordDetector M) tr out n k :
  one_thread (mkWorld s [] tr out n k).
Proof. intros t Ht. cbn in Ht. now rewrite lookup_nil in Ht. Qed.

Lemma alive_after_start w : one_thread w -> alive_count (start_recording w) = 1%nat.
Proof.
  intros Hw. unfold alive_count.
  destruct (match recording_thread (self w) with
            | None => true
            | Some t => negb (is_alive w t)
            end) eqn:Hspawn.
  - rewrite (start_recording_spawn w Hspawn). cbn.
    rewrite filter_app, no_thread_alive; [reflexivity|].
    intros i Hi. specialize (Hw i Hi). rewrite Hw in Hspawn.
    apply is_alive_true in Hi. now rewrite Hi in Hspawn.
  - destruct (recording_thread (self w)) as [rt|] eqn:Hrt; [|discriminate].
    apply negb_false_iff in Hspawn.
    rewrite (start_recording_running w rt Hrt Hspawn).
    apply (single_thread_alive _ rt); [|now apply is_alive_true].
    intros i Hi. specialize (Hw i Hi). congruence.
Qed.

(** C7. In every state the object reaches from a fresh one by calls of
    [start_recording] and [stop_recording] (whether or not the join is in
    time) and turns of the worker, a second [start_recording] in a row does
    nothing, the thread the first one left running is alive, and it is the
    only live thread. *)
Theorem start_recording_idempotent (s : WakeWordDetector M) (calls : list capture_call) :
  let w := replay calls (boot s) in
  start_recording (start_recording w) = start_recording w
  /\ alive_count (start_recording w) = 1%nat
  /\ alive_count (start_recording (start_recording w)) = 1%nat
  /\ exists t, recording_thread (self (start_recording w)) = Some t
               /\ is_alive (start_recording w) t = true.
Proof.
  cbv zeta.
  assert (Hw : one_thread (replay calls (boot s)))
    by apply one_thread_replay, one_thread_boot.
  set (w := replay calls (boot s)) in *.
  split; [apply start_recording_twice|].
  split; [now apply alive_after_start|].
  split; [rewrite start_recording_twice; now apply alive_after_start|].
  destruct (match recording_thread (self w) with
            | None => true
            | Some t => negb (is_alive w t)
            end) eqn:Hspawn.
  - rewrite (start_recording_spawn w Hspawn).
    exists (length (threads w)). split; [reflexivity|].
    apply is_alive_true. cbn. now rewrite lookup_app_r, Nat.sub_diag by lia.
  - destruct (recording_thread (self w)) as [rt|] eqn:Hrt; [|discriminate].
    apply negb_false_iff in Hspawn.
    rewrite (start_recording_running w rt Hrt Hspawn). eauto.
Qed.

End Capture.
End CaptureFacts.

(** ** Which model is loaded *)

Module ConfigFacts.
Import WakeWordDetector Scenarios.

Section Config.
Context {M : Type} {D : Detector M} {P : Platform M}.

Lemma initialize_model_custom (w : world M) (path : string) :
  custom_model_path (self w) = Some path -> truthy path = true ->
  initialize_model w = load_custom_model path w.
Proof. intros Hp Ht. unfold initialize_model. now rewrite Hp, Ht. Qed.

Lemma load_custom_model_trace (w : world M) (path : string) :
  trace (fst (load_custom_model path w))
  = trace w ++ (if path_exists path then [ModelLoaded (Some [path])] else []).
Proof.
  unfold load_custom_model. destruct (path_exists path); cbn.
  - destruct (Model (Some [path])) as [m|e]; [reflexivity|].
    unfold model_error. now destruct (is_Exception e).
  - now rewrite app_nil_r.
Qed.

Lemma load_custom_model_model (w : world M) (path : string) :
  model (self w) = None ->
  model (self (fst (load_custom_model path w)))
  = if path_exists path then
      match Model (Some [path]) with
      | Ok m => Some m
      | Raise _ => None
      end
    else None.
Proof.
  intros Hm. unfold load_custom_model. destruct (path_exists path); cbn; [|exact Hm].
  destruct (Model (Some [path])) as [m|e]; [reflexivity|].
  unfold model_error. now destruct (is_Exception e).
Qed.

(** C9. A custom model path is supplied when the constructor's argument is
    a non-empty string, or else when [CUSTOM_MODEL_PATH] is set to one (the
    truth value Python gives them). Then, whatever [models_override] and
    [WAKE_WORD_MODELS] say, the object holds that path and
    [wake_word_models] is [None]; [initialize_model] downloads nothing and
    hands [Model] the list of this one path, if the file exists, and calls
    nothing otherwise. *)
Theorem custom_model_precedence (environ : gmap string string)
    (models_override : option (list string)) (arg : option string)
    (path : string) (th : float) :
  (arg = Some path
   \/ (truthy_opt arg = false /\ environ !! "CUSTOM_MODEL_PATH"%string = Some path)) ->
  truthy path = true ->
  float_of_string (getenv environ "THRESHOLD" "0.5") = Ok th ->
  exists s : WakeWordDetector M,
    __init__ environ models_override arg = Ok s
    /\ custom_model_path s = Some path
    /\ wake_word_models s = None
    /\ trace (fst (initialize_model (boot s)))
       = (if path_exists path then [ModelLoaded (Some [path])] else [])
    /\ model (self (fst (initialize_model (boot s))))
       = (if path_exists path then
            match Model (Some [path]) with
            | Ok m => Some m
            | Raise _ => None
            end
          else None).
Proof.
  intros Hsup Hpath Hth.
  assert (Hinit : exists s : WakeWordDetector M,
             __init__ environ models_override arg = Ok s
             /\ custom_model_path s = Some path
             /\ wake_word_models s = None
             /\ model s = None).
  { unfold __init__. rewrite Hth.
    destruct Hsup as [->|[Harg Henv]].
    - cbn [truthy_opt]. rewrite Hpath. eexists. repeat split.
    - rewrite Harg, Henv. cbn [truthy_opt]. rewrite Hpath. eexists. repeat split. }
  destruct Hinit as (s & Hs & Hp & Hm & Hmodel).
  exists s. split; [exact Hs|]. split; [exact Hp|]. split; [exact Hm|].
  rewrite (initialize_model_custom (boot s) path Hp Hpath).
  split.
  - now rewrite load_custom_model_trace.
  - now apply load_custom_model_model.
Qed.

End Config.

Lemma custom_model_precedence_witness :
  exists s : WakeWordDetector unit,
    __init__ (P := plain_platform) {[ "WAKE_WORD_MODELS"%string := "alexa"%string ]}
      (Some ["hey_jarvis"%string]) (Some "my_model.onnx"%string) = Ok s
    /\ wake_word_models s = None.
Proof.
  destruct (custom_model_precedence (P := plain_platform)
              {[ "WAKE_WORD_MODELS"%string := "alexa"%string ]}
              (Some ["hey_jarvis"%string]) (Some "my_model.onnx"%string)
              "my_model.onnx" 0.5%float (or_introl eq_refl) eq_refl eq_refl)
    as (s & Hs & _ & Hm & _).
  exists s. split; assumption.
Defined.

End ConfigFacts.

(** ** The trigger loop *)

Module TriggerFacts.
Import WakeWordDetector.

Lemma quiet_not_detected o : quiet o -> not_detected o.
Proof. now destruct o. Qed.

Lemma quiet_not_scored o : quiet o -> not_scored o.
Proof. now destruct o. Qed.

Lemma protocol_weaken final tr : protocol false tr -> protocol final tr.
Proof.
  intros H. remember false as b eqn:Hb.
  induction H; subst; try discriminate.
  - apply protocol_nil.
  - apply protocol_other; auto.
  - apply protocol_fired; auto.
Qed.

Lemma protocol_quiet final tr : Forall quiet tr -> protocol final tr.
Proof.
  induction 1 as [|o tr Ho _ IH].
  - apply protocol_nil.
  - apply protocol_other; auto using quiet_not_detected.
Qed.

Lemma protocol_app final tr1 tr2 :
  protocol false tr1 -> protocol final tr2 -> protocol final (tr1 ++ tr2).
Proof.
  intros H1 H2. remember false as b eqn:Hb.
  induction H1; subst; try discriminate; cbn.
  - exact H2.
  - apply protocol_other; auto.
  - apply protocol_fired; auto.
Qed.

Lemma protocol_app_quiet tr tl :
  protocol true tr -> Forall quiet tl -> protocol true (tr ++ tl).
Proof.
  intros H Htl. remember true as b eqn:Hb.
  induction H; subst; cbn.
  - now apply protocol_quiet.
  - apply protocol_other; auto.
  - apply protocol_fired; auto.
  - apply protocol_interrupted. now apply Forall_app.
Qed.


Section Trigger.
Context {M : Type} {D : Detector M} {P : Platform M}.
Implicit Types (w : world M).

Lemma play_video_spec w :
  let r := subprocess_run (plays w) in
  let w' := fst (play_video w) in
  trace w' = trace w ++ [PlayVideo r]
  /\ snd (play_video w) = (if goes_on r then Ok tt else r)
  /\ self w' = self w
  /\ threads w' = threads w
  /\ plays w' = S (plays w)
  /\ writes w' = writes w
  /\ stdout w' = stdout w ++ MsgPlaying (video_path (self w)) :: play_message r.
Proof.
  cbv zeta. unfold play_video. cbn.
  destruct (subprocess_run (plays w)) as [[]|e]; cbn; rewrite <- ?app_assoc; [auto 10|].
  destruct e; cbn; rewrite <- ?app_assoc, ?app_nil_r; auto 10.
Qed.

Lemma fire_spec n s w :
  let r := subprocess_run (plays w) in
  let w' := fst (fire n s w) in
  trace w' = trace w ++ fired n s (audio_queue (self w)) r
  /\ snd (fire n s w) = (if goes_on r then Ok tt else r)
  /\ threshold (self w') = threshold (self w)
  /\ debug_recorder (self w') = debug_recorder (self w)
  /\ model (self w') = option_map reset (model (self w))
  /\ audio_queue (self w') = []
  /\ plays w' = S (plays w)
  /\ writes w' = writes w.
Proof.
  cbv zeta. unfold fire, fired.
  set (w1 := emit [ModelReset] _).
  assert (H1 : trace w1 = trace w ++ [Detected n s; StopRecording;
                                     QueueCleared (audio_queue (self w)); ModelReset]
               /\ plays w1 = plays w /\ writes w1 = writes w
               /\ threshold (self w1) = threshold (self w)
               /\ debug_recorder (self w1) = debug_recorder (self w)
               /\ model (self w1) = option_map reset (model (self w))
               /\ audio_queue (self w1) = []).
  { unfold w1, stop_recording. cbn.
    destruct (recording_thread (self w)); [destruct (join_in_time (plays w))|];
      cbn; rewrite <- !app_assoc; cbn; auto 10. }
  destruct H1 as (Htr & Hpl & Hwr & Hth & Hrec & Hmod & Hq). clearbody w1.
  pose proof (play_video_spec w1) as (Ptr & Pres & Pself & _ & Ppl & Pwr & _).
  rewrite Hpl in *.
  destruct (play_video w1) as [w2 res]. cbn [fst snd] in *. subst res.
  destruct (goes_on (subprocess_run (plays w))) eqn:Hgo.
  - cbn. unfold start_recording.
    destruct (match recording_thread (self (say MsgListeningAgain w2)) with
              | None => true
              | Some t => negb (is_alive (say MsgListeningAgain w2) t)
              end); cbn; rewrite Ptr, Htr, ?Pself, ?Pwr, <- !app_assoc; cbn; auto 10.
  - destruct (subprocess_run (plays w)) as [[]|e]; [discriminate|].
    cbn [fst snd]. rewrite Ptr, Htr, ?Pself, ?Pwr, <- !app_assoc. cbn. auto 10.
Qed.

Lemma fired_protocol n s q r : protocol (negb (goes_on r)) (fired n s q r).
Proof.
  unfold fired. destruct (goes_on r); cbn.
  - apply protocol_fired, protocol_nil.
  - apply protocol_interrupted. constructor.
Qed.

Lemma fired_not_scored n s q r : Forall not_scored (fired n s q r).
Proof. unfold fired. destruct (goes_on r); repeat constructor. Qed.

Lemma detections_app tr1 tr2 : detections (tr1 ++ tr2) = detections tr1 ++ detections tr2.
Proof. apply omap_app. Qed.

Lemma scored_app tr1 tr2 : scored (tr1 ++ tr2) = scored tr1 ++ scored tr2.
Proof. apply omap_app. Qed.

Lemma fired_detections n s q r : detections (fired n s q r) = [(n, s)].
Proof. unfold fired. now destruct (goes_on r). Qed.

Lemma above_cons (th : float) n s (p : list (string * float)) :
  above th ((n, s) :: p)
  = if (th <? s)%float then (n, s) :: above th p else above th p.
Proof.
  unfold above. rewrite filter_cons. cbn [snd].
  destruct (th <? s)%float; [now rewrite decide_True|now rewrite decide_False].
Qed.

(** What the [for] loop over the prediction does. *)
Lemma check_results_spec (p : prediction) : forall w,
  exists tr,
    trace (fst (check_results p w)) = trace w ++ tr
    /\ protocol (negb (goes_on (snd (check_results p w)))) tr
    /\ Forall not_scored tr
    /\ (exists rest, above (threshold (self w)) p = detections tr ++ rest)
    /\ (above (threshold (self w)) p <> [] -> detections tr <> [])
    /\ (goes_on (snd (check_results p w)) = true ->
        detections tr = above (threshold (self w)) p)
    /\ threshold (self (fst (check_results p w))) = threshold (self w)
    /\ (forall e, snd (check_results p w) = Raise e -> is_Exception e = false).
Proof.
  induction p as [|[n s] p IH]; intros w.
  - exists []. cbn. rewrite app_nil_r. repeat split; try constructor.
    + now exists [].
    + trivial.
    + discriminate.
  - cbn [check_results].
    pose proof (above_cons (threshold (self w)) n s p) as Hcons.
    destruct (threshold (self w) <? s)%float eqn:Hab.
    + pose proof (fire_spec n s w) as (Ftr & Fres & Fth & _).
      destruct (fire n s w) as [w1 res]. cbn [fst snd] in *.
      destruct (goes_on (subprocess_run (plays w))) eqn:Hgo; subst res.
      * destruct (IH w1) as (tr & Htr & Hpr & Hns & [rest Hrest] & Hne & Hall & Hth & Hex).
        exists (fired n s (audio_queue (self w)) (subprocess_run (plays w)) ++ tr).
        rewrite Fth in *. rewrite Hcons.
        split; [now rewrite Htr, Ftr, app_assoc|].
        split. { apply protocol_app; [|exact Hpr].
                 pose proof (fired_protocol n s (audio_queue (self w))
                               (subprocess_run (plays w))) as Hf.
                 now rewrite Hgo in Hf. }
        split; [apply Forall_app; split; [apply fired_not_scored|exact Hns]|].
        rewrite detections_app, fired_detections. cbn [app].
        split; [exists rest; now rewrite Hrest|].
        split; [discriminate|].
        split; [intros Hok; now rewrite (Hall Hok)|].
        split; [exact Hth|exact Hex].
      * exists (fired n s (audio_queue (self w)) (subprocess_run (plays w))).
        destruct (subprocess_run (plays w)) as [[]|e] eqn:Hrun; [discriminate|].
        cbn [fst snd]. cbn [goes_on] in *. rewrite Hgo, Hcons.
        split; [exact Ftr|].
        split. { pose proof (fired_protocol n s (audio_queue (self w)) (Raise e)) as Hf.
                 cbn [goes_on] in Hf. now rewrite Hgo in Hf. }
        split; [apply fired_not_scored|].
        rewrite fired_detections.
        split; [now exists (above (threshold (self w)) p)|].
        split; [discriminate|].
        split; [discriminate|].
        split; [exact Fth|]. intros e' He'. now injection He' as <-.
    + destruct (IH w) as (tr & Htr). exists tr. now rewrite Hcons.
Qed.

Lemma record_chunk_spec (f : frame) w :
  exists recs,
    trace (fst (record_chunk f w)) = trace w ++ recs
    /\ Forall quiet recs
    /\ threshold (self (fst (record_chunk f w))) = threshold (self w)
    /\ model (self (fst (record_chunk f w))) = model (self w)
    /\ audio_queue (self (fst (record_chunk f w))) = audio_queue (self w)
    /\ plays (fst (record_chunk f w)) = plays w
    /\ threads (fst (record_chunk f w)) = threads w.
Proof.
  unfold record_chunk. destruct (debug_recorder (self w)) as [rec|].
  - destruct (RollingAudioRecorder.process_chunk _ rec f) as [ws [rec'|e]];
      exists (map Recorded ws); cbn; (split; [reflexivity|]);
      (split; [|auto 10]); apply Forall_map, Forall_true; now intros.
  - exists []. cbn. rewrite app_nil_r. auto 10.
Qed.

(** The trace of one pass through the loop body: the recorder's writes,
    then nothing more, or a failed scoring, or a scoring and the detections
    it leads to. *)
Lemma loop_body_spec w :
  exists recs body,
    trace (fst (loop_body w)) = trace w ++ recs ++ body
    /\ Forall quiet recs
    /\ (body = []
        \/ (exists a e, body = [Scored a (Raise e)] /\ snd (loop_body w) = Raise e)
        \/ (exists a p tr,
              body = Scored a (Ok p) :: tr
              /\ protocol (negb (goes_on (snd (loop_body w)))) tr
              /\ Forall not_scored tr
              /\ (exists rest, above (threshold (self w)) p = detections tr ++ rest)
              /\ (above (threshold (self w)) p <> [] -> detections tr <> [])
              /\ (forall e, snd (loop_body w) = Raise e -> is_Exception e = false))).
Proof.
  unfold loop_body.
  destruct (audio_queue (self w)) as [|f rest] eqn:Hq.
  { exists [], []. cbn. rewrite app_nil_r. auto. }
  set (w0 := with_self (set_audio_queue rest) w).
  assert (H0 : trace w0 = trace w /\ threshold (self w0) = threshold (self w)) by now cbn.
  destruct H0 as [Htr0 Hth0]. clearbody w0.
  destruct (record_chunk_spec f w0) as (recs & Htr1 & Hquiet & Hth1 & _).
  destruct (record_chunk f w0) as [w1 [[]|e]]; cbn [fst snd] in *.
  2: { exists recs, []. cbn [fst snd]. rewrite app_nil_r, Htr1, Htr0. auto. }
  destruct (frombuffer f) as [a|e].
  2: { exists recs, []. cbn [fst snd]. rewrite app_nil_r, Htr1, Htr0. auto. }
  destruct (model (self w1)) as [m|].
  2: { exists recs, []. cbn [fst snd]. rewrite app_nil_r, Htr1, Htr0. auto. }
  destruct (predict m a) as [[p|e] m'].
  - set (w2 := emit [Scored a (Ok p)] _).
    assert (H2 : trace w2 = trace w1 ++ [Scored a (Ok p)]
                 /\ threshold (self w2) = threshold (self w1)) by now cbn.
    destruct H2 as [Htr2 Hth2]. clearbody w2.
    destruct (check_results_spec p w2) as (tr & Htr & Hpr & Hns & Hpre & Hne & _ & _ & Hex).
    rewrite Hth2, Hth1, Hth0 in *.
    exists recs, (Scored a (Ok p) :: tr).
    split; [rewrite Htr, Htr2, Htr1, Htr0, <- !app_assoc; reflexivity|].
    split; [exact Hquiet|]. right. right. exists a, p, tr. auto 10.
  - exists recs, [Scored a (Raise e)]. cbn.
    split; [now rewrite Htr1, Htr0, <- !app_assoc|].
    split; [exact Hquiet|]. right. left. eauto.
Qed.

Lemma not_Exception e : is_Exception e = false -> e = KeyboardInterrupt.
Proof. now destruct e. Qed.

Lemma protocol_final final tr : protocol final tr -> protocol true tr.
Proof. destruct final; [trivial|apply protocol_weaken]. Qed.

Lemma loop_body_protocol w :
  exists tr,
    trace (fst (loop_body w)) = trace w ++ tr
    /\ protocol (negb (stays (snd (loop_body w)))) tr.
Proof.
  destruct (loop_body_spec w) as (recs & body & Htr & Hq & Hbody).
  exists (recs ++ body). split; [exact Htr|].
  apply protocol_app; [now apply protocol_quiet|].
  destruct Hbody as [->|[(a & e & -> & _)|(a & p & tr & -> & Hpr & _ & _ & _ & Hex)]].
  - apply protocol_nil.
  - apply protocol_other; [exact I|apply protocol_nil].
  - apply protocol_other; [exact I|].
    destruct (snd (loop_body w)) as [[]|e].
    + exact Hpr.
    + rewrite (not_Exception e (Hex e eq_refl)) in *. exact Hpr.
Qed.

Lemma cleanup_trace w : trace (cleanup w) = trace w ++ cleanup_ops.
Proof.
  unfold cleanup, stop_recording. cbn.
  destruct (recording_thread (self w)); [destruct (join_in_time _)|]; cbn; now rewrite <- !app_assoc.
Qed.

Lemma cleanup_quiet : Forall quiet cleanup_ops.
Proof. repeat constructor. Qed.

Lemma interrupt_spec w :
  trace (fst (interrupt w)) = trace w ++ cleanup_ops /\ snd (interrupt w) = Returned.
Proof. unfold interrupt. cbn [fst snd]. now rewrite cleanup_trace. Qed.

(** One turn of the loop with its handlers: the trace of the body, and the
    clean-up after it when the loop is left. *)
Lemma iteration_spec w :
  let res := snd (loop_body w) in
  exists tr,
    trace (fst (loop_body w)) = trace w ++ tr
    /\ trace (fst (iteration w)) = trace w ++ tr ++ (if stays res then [] else cleanup_ops)
    /\ is_listening (snd (iteration w)) = stays res
    /\ protocol (negb (stays res)) tr.
Proof.
  cbv zeta. destruct (loop_body_protocol w) as (tr & Htr & Hpr).
  exists tr. split; [exact Htr|].
  unfold iteration. destruct (loop_body w) as [w' [[]|e]]; cbn [fst snd] in *.
  - cbn. rewrite app_nil_r. auto.
  - destruct e; cbn [stays fst snd is_listening interrupt];
      rewrite ?cleanup_trace, ?app_nil_r; cbn [trace say];
      rewrite ?Htr, <- ?app_assoc; auto.
Qed.

Lemma iteration_protocol w :
  exists tr,
    trace (fst (iteration w)) = trace w ++ tr
    /\ protocol (negb (is_listening (snd (iteration w)))) tr.
Proof.
  destruct (iteration_spec w) as (tr & _ & Htr & Hst & Hpr).
  rewrite Hst. destruct (stays (snd (loop_body w))).
  - exists tr. now rewrite app_nil_r in Htr.
  - exists (tr ++ cleanup_ops). split; [exact Htr|].
    apply protocol_app_quiet; [exact Hpr|apply cleanup_quiet].
Qed.

Lemma step_protocol k w :
  exists tr,
    trace (fst (step k w)) = trace w ++ tr
    /\ protocol (negb (is_listening (snd (step k w)))) tr.
Proof.
  destruct k as [t read| |]; cbn [step].
  - exists []. split; [|apply protocol_nil]. rewrite app_nil_r. cbn [fst].
    apply CaptureFacts.worker_keeps.
  - apply iteration_protocol.
  - exists cleanup_ops. destruct (interrupt_spec w) as [-> ->].
    split; [reflexivity|]. apply protocol_quiet, cleanup_quiet.
Qed.


(** *** After a detection whose action fails *)



Lemma check_results_none (p : prediction) : forall w,
  above (threshold (self w)) p = [] -> check_results p w = (w, Ok tt).
Proof.
  induction p as [|[n s] p IH]; intros w Hab; [reflexivity|].
  rewrite above_cons in Hab. cbn [check_results].
  destruct (threshold (self w) <? s)%float; [discriminate|now apply IH].
Qed.




Lemma process_chunk_total (io_ok : bool) (rec : RollingAudioRecorder.RollingAudioRecorder)
    (f : frame) (a : list Z) :
  RollingAudioRecorder.num_files rec <> 0 -> frombuffer f = Ok a ->
  exists ws rec',
    RollingAudioRecorder.process_chunk io_ok rec f = (ws, Ok rec')
    /\ RollingAudioRecorder.num_files rec' = RollingAudioRecorder.num_files rec.
Proof.
  intros Hnf Hf. unfold RollingAudioRecorder.process_chunk. rewrite Hf.
  destruct (_ <=? _); [|eauto].
  rewrite RecorderFacts.write_appended by exact Hnf. cbv zeta. eauto.
Qed.

(** Step 2 of the loop body goes through when the recorder is ready. *)
Lemma record_chunk_ready (f : frame) (a : list Z) w :
  recorder_ready w -> frombuffer f = Ok a ->
  let w' := fst (record_chunk f w) in
  snd (record_chunk f w) = Ok tt
  /\ recorder_ready w'
  /\ threshold (self w') = threshold (self w)
  /\ model (self w') = model (self w)
  /\ audio_queue (self w') = audio_queue (self w)
  /\ recording (self w') = recording (self w)
  /\ recording_thread (self w') = recording_thread (self w)
  /\ threads w' = threads w
  /\ plays w' = plays w
  /\ stdout w' = stdout w.
Proof.
  intros Hr Hf. cbv zeta. unfold record_chunk, recorder_ready in *.
  destruct (debug_recorder (self w)) as [rec|] eqn:Hrec.
  - destruct (process_chunk_total (wave_write_ok (writes w)) rec f a Hr Hf)
      as (ws & rec' & -> & Hnf).
    cbn. rewrite Hnf. auto 12.
  - cbn. rewrite Hrec. auto 12.
Qed.

Lemma quiet_detections tr : Forall not_detected tr -> detections tr = [].
Proof.
  induction 1 as [|o tr Ho _ IH]; [reflexivity|].
  destruct o; try contradiction; exact IH.
Qed.

Lemma quiet_scored tr : Forall not_scored tr -> scored tr = [].
Proof.
  induction 1 as [|o tr Ho _ IH]; [reflexivity|].
  destruct o; try contradiction; exact IH.
Qed.

Lemma Forall_quiet_not_detected tr : Forall quiet tr -> Forall not_detected tr.
Proof. intros H. eapply Forall_impl; [exact H|apply quiet_not_detected]. Qed.

Lemma Forall_quiet_not_scored tr : Forall quiet tr -> Forall not_scored tr.
Proof. intros H. eapply Forall_impl; [exact H|apply quiet_not_scored]. Qed.

(** The loop body up to the call of [predict], when a frame is waiting, the
    recorder is ready, the frame decodes and the model is loaded: [w2] is
    the world in which the results are then checked. *)
Lemma loop_body_scored w (f : frame) (rest : list frame) (a : list Z) (m : M) :
  audio_queue (self w) = f :: rest ->
  recorder_ready w ->
  frombuffer f = Ok a ->
  model (self w) = Some m ->
  exists w2 recs,
    loop_body w =
      match fst (predict m a) with
      | Ok p => check_results p w2
      | Raise e => (w2, Raise e)
      end
    /\ trace w2 = trace w ++ recs ++ [Scored a (fst (predict m a))]
    /\ Forall quiet recs
    /\ threshold (self w2) = threshold (self w)
    /\ recorder_ready w2
    /\ model (self w2) = Some (snd (predict m a))
    /\ audio_queue (self w2) = rest
    /\ recording (self w2) = recording (self w)
    /\ recording_thread (self w2) = recording_thread (self w)
    /\ threads w2 = threads w
    /\ plays w2 = plays w
    /\ stdout w2 = stdout w.
Proof.
  intros Hq Hr Hf Hm. unfold loop_body. rewrite Hq.
  set (w0 := with_self (set_audio_queue rest) w).
  assert (Hr0 : recorder_ready w0) by exact Hr.
  pose proof (record_chunk_ready f a w0 Hr0 Hf)
    as (Rres & Rr & Rth & Rmod & Rq & Rrec & Rrt & Rths & Rpl & Rout).
  destruct (record_chunk_spec f w0) as (recs & Rtr & Rquiet & _).
  destruct (record_chunk f w0) as [w1 res]. cbn [fst snd] in *. subst res.
  rewrite Hf. replace (model (self w1)) with (Some m) by (rewrite Rmod; now cbn).
  destruct (predict m a) as [r m']. cbn [fst snd].
  exists (emit [Scored a r] (with_self (set_model (Some m')) w1)), recs.
  split; [now destruct r|].
  split; [cbn; rewrite Rtr; cbn; now rewrite <- app_assoc|].
  split; [exact Rquiet|].
  cbn. unfold recorder_ready in *. cbn. rewrite Rth, Rq, Rrec, Rrt, Rths, Rpl, Rout.
  repeat split; try reflexivity. exact Rr.
Qed.


(** *** When a turn of the loop fires *)

Lemma In_detections n s tr : In (Detected n s) tr <-> In (n, s) (detections tr).
Proof.
  unfold detections. induction tr as [|o tr IH]; [reflexivity|].
  destruct o; cbn; rewrite <- ?IH;
    try (split; [intros [H|H]; [discriminate|exact H]|intros H; right; exact H]).
  split; (intros [H|H]; [left; congruence|right; exact H]).
Qed.

Lemma In_above th (p : list (string * float)) n s :
  In (n, s) (above th p) <-> In (n, s) p /\ (th <? s)%float = true.
Proof.
  unfold above. rewrite <- !list_elem_of_In, list_elem_of_filter. cbn. tauto.
Qed.

Lemma quiet_no_detected tr n s : Forall quiet tr -> ~ In (Detected n s) tr.
Proof.
  intros Hq Hin. rewrite Forall_forall in Hq.
  exact (Hq _ (proj2 (list_elem_of_In _ _) Hin)).
Qed.

Lemma quiet_no_scored tr a x : Forall quiet tr -> ~ In (Scored a x) tr.
Proof.
  intros Hq Hin. rewrite Forall_forall in Hq.
  exact (Hq _ (proj2 (list_elem_of_In _ _) Hin)).
Qed.

Lemma not_scored_no_scored tr a x : Forall not_scored tr -> ~ In (Scored a x) tr.
Proof.
  intros Hq Hin. rewrite Forall_forall in Hq.
  exact (Hq _ (proj2 (list_elem_of_In _ _) Hin)).
Qed.

Lemma iteration_fires_iff w :
  exists tr,
    trace (fst (iteration w)) = trace w ++ tr
    /\ ((exists n s, In (Detected n s) tr)
        <-> (exists a p n s,
               In (Scored a (Ok p)) tr /\ In (n, s) p
               /\ (threshold (self w) <? s)%float = true)).
Proof.
  destruct (iteration_spec w) as (tr0 & Hlb & Hit & _).
  destruct (loop_body_spec w) as (recs & body & Htr & Hq & Hbody).
  rewrite Htr in Hlb. apply app_inv_head in Hlb. subst tr0.
  set (cl := if stays (snd (loop_body w)) then [] else cleanup_ops) in *.
  assert (Hcl : Forall quiet cl) by (unfold cl; destruct (stays _); [constructor|apply cleanup_quiet]).
  exists ((recs ++ body) ++ cl). split; [exact Hit|].
  destruct Hbody as [->|[(a & e & -> & _)|(a & p & tr & -> & _ & Hns & [rest Hpre] & Hne & _)]].
  - split.
    + intros (n & s & Hin). rewrite !in_app_iff in Hin.
      destruct Hin as [[Hin|[]]|Hin]; now apply quiet_no_detected in Hin.
    + intros (a & p & n & s & Hin & _). rewrite !in_app_iff in Hin.
      destruct Hin as [[Hin|[]]|Hin]; now apply quiet_no_scored in Hin.
  - split.
    + intros (n & s & Hin). rewrite !in_app_iff in Hin. cbn [In] in Hin.
      destruct Hin as [[Hin|[Hin|[]]]|Hin]; try discriminate;
        now apply quiet_no_detected in Hin.
    + intros (a' & p & n & s & Hin & _). rewrite !in_app_iff in Hin. cbn [In] in Hin.
      destruct Hin as [[Hin|[Hin|[]]]|Hin]; try discriminate;
        now apply quiet_no_scored in Hin.
  - split.
    + intros (n & s & Hin). rewrite !in_app_iff in Hin. cbn [In] in Hin.
      destruct Hin as [[Hin|[Hin|Hin]]|Hin]; try discriminate;
        try now apply quiet_no_detected in Hin.
      exists a, p, n, s. split; [rewrite !in_app_iff; cbn; auto|].
      apply In_above. rewrite Hpre. apply in_app_iff. left. now apply In_detections.
    + intros (a' & p' & n & s & Hin & Hp & Hs). rewrite !in_app_iff in Hin. cbn [In] in Hin.
      destruct Hin as [[Hin|[Hin|Hin]]|Hin];
        try (now apply quiet_no_scored in Hin);
        try (now apply not_scored_no_scored in Hin).
      injection Hin as _ <-.
      assert (Hab : above (threshold (self w)) p <> []).
      { intros Hnil. assert (Hin : In (n, s) (above (threshold (self w)) p))
          by now apply In_above.
        now rewrite Hnil in Hin. }
      specialize (Hne Hab).
      destruct (detections tr) as [|[n' s'] ds] eqn:Hd; [now destruct Hne|].
      exists n', s'. rewrite !in_app_iff. cbn [In]. left. right. right.
      apply In_detections. rewrite Hd. now left.
Qed.

(** A score that equals the threshold is not above it. *)
Lemma SFcompare_refl (x : spec_float) :
  SFcompare x x = Some Eq \/ SFcompare x x = None.
Proof.
  destruct x as [sg|sg| |sg m e]; cbn; auto.
  - destruct sg; auto.
  - destruct sg; rewrite Z.compare_refl; cbn; rewrite ?Pos.compare_refl; cbn; auto.
Qed.

Lemma ltb_irrefl (x : float) : (x <? x)%float = false.
Proof.
  rewrite ltb_spec. unfold SFltb.
  destruct (SFcompare_refl (Prim2SF x)) as [-> | ->]; reflexivity.
Qed.

(** *** The claims about the loop *)


(** C4, as the code has it. When [predict] raises an error on a frame (any
    [Exception] but [queue.Empty], the one exception the loop catches), no
    detection is made for the frame, but the error is not caught: [run]
    cleans up (the capture is stopped, the stream closed) and ends with that
    error, and nothing of the rest of the schedule is run. *)
Theorem scoring_error_ends_run (w : world M) (f : frame) (rest : list frame)
    (a : list Z) (m : M) (e : exn) (schedule : list tick) :
  audio_queue (self w) = f :: rest ->
  recorder_ready w ->
  frombuffer f = Ok a ->
  model (self w) = Some m ->
  fst (predict m a) = Raise e ->
  e <> Empty ->
  is_Exception e = true ->
  let out := exec (Consumer :: schedule) w in
  snd out = Crashed e
  /\ detections (trace (fst out)) = detections (trace w)
  /\ scored (trace (fst out)) = scored (trace w) ++ [a]
  /\ (exists recs,
        trace (fst out) = trace w ++ recs ++ Scored a (Raise e) :: cleanup_ops
        /\ Forall quiet recs)
  /\ recording (self (fst out)) = false.
Proof.
  intros Hq Hr Hf Hm Hp Hne Hex. cbv zeta.
  destruct (loop_body_scored w f rest a m Hq Hr Hf Hm)
    as (w2 & recs & Hbody & Htr & Hquiet & _).
  rewrite Hp in Hbody, Htr.
  assert (Hit : iteration w = (cleanup w2, Crashed e)).
  { unfold iteration. rewrite Hbody. now destruct e. }
  cbn [exec step]. rewrite Hit. cbn [fst snd].
  assert (Htrace : trace (cleanup w2) = trace w ++ recs ++ Scored a (Raise e) :: cleanup_ops).
  { rewrite cleanup_trace, Htr, <- !app_assoc. reflexivity. }
  split; [reflexivity|].
  split; [|split; [|split]].
  - rewrite Htrace, !detections_app.
    rewrite (quiet_detections recs) by now apply Forall_quiet_not_detected.
    cbn. now rewrite app_nil_r.
  - rewrite Htrace, !scored_app.
    rewrite (quiet_scored recs) by now apply Forall_quiet_not_scored.
    reflexivity.
  - exists recs. now split.
  - unfold cleanup, stop_recording. cbn. now destruct (recording_thread (self w2)); [destruct (join_in_time _)|].
Qed.


End Trigger.

End TriggerFacts.

(** ** The scenarios of the specification *)

Module ScenarioFacts.
Import WakeWordDetector TriggerFacts Scenarios.

(** C1, at the input of the scenario. With the scores alpha 0.7 and beta
    0.8 and the threshold 0.5, one frame makes the loop enter the detection
    branch twice, first for alpha and then for beta, and the video is played
    twice. *)
Theorem two_labels_fire_twice :
  let out := run (D := two_detector) (P := plain_platform)
               [Producer 0 (Ok (frame_of Byte.x01)); Consumer]
               (started plain_platform ["alpha"%string; "beta"%string]) in
  threshold (self (fst out)) = 0.5%float
  /\ detections (trace (fst out)) = [("alpha"%string, 0.7%float); ("beta"%string, 0.8%float)]
  /\ scored (trace (fst out)) = [[1]]
  /\ plays (fst out) = 2%nat.
Proof. vm_compute. repeat split. Qed.

(** When the frames scoring 0.9 and 0.1 are captured after the capture has
    resumed, the frame scoring 0.9 is scored and fires too: two detections. *)
Lemma alpha_fires_twice :
  let out := run (D := alpha_detector) (P := plain_platform) live_schedule
               (started plain_platform ["alpha"%string]) in
  scored (trace (fst out)) = [[1]; [2]; [3]; [4]]
  /\ detections (trace (fst out)) = [("alpha"%string, 0.6%float); ("alpha"%string, 0.9%float)]
  /\ length (detections (trace (fst out))) <> 1%nat.
Proof. vm_compute. repeat split. discriminate. Qed.

(** C3, as the code has it. A turn of the loop enters the detection branch
    if and only if the frame it scored has a label whose score is strictly
    above the threshold; a score equal to the threshold is not above it (a
    frame scoring exactly 0.5 does not fire). In the scenario (threshold
    0.5, model alpha, frames scoring 0.2, 0.6, 0.9, 0.1) the first detection
    is at the frame scoring 0.6; when the two later frames are already in
    the queue at that moment they are thrown away unscored, and this is the
    only detection. *)
Theorem fires_above_threshold :
  (forall (M : Type) (D : Detector M) (P : Platform M) (w : world M),
     exists tr,
       trace (fst (iteration w)) = trace w ++ tr
       /\ ((exists n s, In (Detected n s) tr)
           <-> (exists a p n s,
                  In (Scored a (Ok p)) tr /\ In (n, s) p
                  /\ (threshold (self w) <? s)%float = true)))
  /\ (forall (th : float) (n : string), above th [(n, th)] = [])
  /\ (let out := run (D := alpha_detector) (P := plain_platform)
                   [Producer 0 (Ok (frame_of Byte.x05)); Consumer]
                   (started plain_platform ["alpha"%string]) in
      scored (trace (fst out)) = [[5]] /\ detections (trace (fst out)) = [])
  /\ (let out := run (D := alpha_detector) (P := plain_platform) queued_schedule
                   (started plain_platform ["alpha"%string]) in
      scored (trace (fst out)) = [[1]; [2]]
      /\ detections (trace (fst out)) = [("alpha"%string, 0.6%float)]
      /\ In (QueueCleared [frame_of Byte.x03; frame_of Byte.x04]) (trace (fst out))
      /\ audio_queue (self (fst out)) = []).
Proof.
  split; [|split; [|split]].
  - intros M D P w. apply iteration_fires_iff.
  - intros th n. rewrite above_cons. now rewrite ltb_irrefl.
  - vm_compute. now split.
  - vm_compute. repeat split. tauto.
Qed.

(** After an error of [predict] on the second frame the run is over: the
    third frame is captured but never scored. *)
Lemma scoring_error_stops_loop :
  let out := run (D := failing_detector) (P := plain_platform)
               [Producer 0 (Ok (frame_of Byte.x01)); Consumer;
                Producer 0 (Ok (frame_of Byte.x02)); Consumer;
                Producer 0 (Ok (frame_of Byte.x03)); Consumer]
               (started plain_platform ["alpha"%string]) in
  snd out = Crashed (OtherException "RuntimeError")
  /\ scored (trace (fst out)) = [[1]; [2]]
  /\ recording (self (fst out)) = false.
Proof. vm_compute. repeat split. Qed.


Lemma scoring_error_ends_run_witness :
  snd (exec (D := failing_detector) (P := plain_platform) [Consumer; Consumer]
         (waiting plain_platform ["alpha"%string] (frame_of Byte.x02)))
  = Crashed (OtherException "RuntimeError").
Proof.
  refine (proj1 (scoring_error_ends_run (D := failing_detector) (P := plain_platform)
                   (waiting plain_platform ["alpha"%string] (frame_of Byte.x02))
                   (frame_of Byte.x02) [] [2] tt (OtherException "RuntimeError") [Consumer]
                   eq_refl I eq_refl eq_refl eq_refl _ eq_refl)).
  discriminate.
Defined.


End ScenarioFacts.

(** ** More about the debug recorder *)

Module RecorderMore.
Import RollingAudioRecorder RecorderFacts Scenarios.

(** One chunk of any length, fed to a recorder that keeps its invariant. *)
Lemma process_chunk_any (io_ok : bool) (self : RollingAudioRecorder) (data : list Byte.byte) :
  invariant self -> Nat.even (length data) = true ->
  exists ws self',
    process_chunk io_ok self data = (ws, Ok self')
    /\ invariant self'
    /\ num_files self' = num_files self
    /\ samples_per_file self' = samples_per_file self
    /\ concat (map wav_frames ws) ++ concat (audio_buffer self')
       = concat (audio_buffer self) ++ samples_of data
    /\ (length ws <= 1)%nat
    /\ (0 <= samples_per_file self ->
        Forall (fun w => len (wav_frames w) = samples_per_file self) ws)
    /\ current_file_index self' = (current_file_index self + len ws) mod num_files self.
Proof.
  intros Hinv He. pose proof Hinv as [Hc Hi].
  set (a := samples_of data) in *.
  rewrite process_chunk_even by exact He. fold a.
  pose proof (len_nonneg a) as Ha.
  pose proof (appended_invariant self a Hinv) as Hinv'.
  destruct (Z.leb_spec (samples_per_file self) (buffer_sample_count self + len a))
    as [Hfull|Hroom].
  - assert (Hnf : num_files self <> 0) by lia.
    pose proof (write_appended io_ok self a Hnf) as Hw. cbv zeta in Hw.
    pose proof (write_preserves io_ok _ _ _ Hinv' Hw) as Hinv''.
    rewrite Hw. clear Hw.
    set (full := concat (audio_buffer self) ++ a) in *.
    assert (Hlen : len full = buffer_sample_count self + len a)
      by (unfold full; rewrite len_app; lia).
    eexists _, _. split; [reflexivity|]. split; [exact Hinv''|].
    split; [reflexivity|]. split; [reflexivity|].
    split; [|split; [cbn; lia|split]].
    + cbn [map concat wav_frames rotate audio_buffer]. rewrite app_nil_r.
      destruct (Z.ltb_spec (samples_per_file self) (len full)) as [Hmore|Hexact].
      * cbn. rewrite app_nil_r. apply slice_to_from.
      * assert (Hnil : slice_from full (samples_per_file self) = []).
        { apply length_zero_iff_nil. unfold slice_from.
          destruct (Z.leb_spec 0 (samples_per_file self)); unfold len in *.
          - rewrite length_drop. lia.
          - lia. }
        cbn. rewrite app_nil_r.
        rewrite <- (slice_to_from full (samples_per_file self)) at 2.
        now rewrite Hnil, app_nil_r.
    + intros Hpos. repeat constructor. cbn. unfold slice_to.
      destruct (Z.leb_spec 0 (samples_per_file self)); [|lia].
      unfold len in *. rewrite length_take. lia.
    + reflexivity.
  - eexists [], _. split; [reflexivity|]. split; [exact Hinv'|].
    split; [reflexivity|]. split; [reflexivity|].
    split; [cbn; now rewrite concat_snoc|].
    split; [cbn; lia|]. split; [constructor|].
    cbn. rewrite Z.add_0_r. symmetry. now apply Z.mod_small.
Qed.

(** The recorder loses and repeats nothing, whatever the sizes of the
    chunks: after any sequence of chunks of whole samples, the files written
    so far, read in order, followed by the samples still buffered, are the
    samples that were buffered before followed by the samples fed. No call
    writes more than one file, every file holds exactly [samples_per_file]
    samples (when that number is not negative), and the index has advanced
    by one per file, modulo [num_files]. *)
Theorem feed_conserves (chunks : list (bool * list Byte.byte)) :
  forall self,
    invariant self ->
    Forall (fun c => Nat.even (length (snd c)) = true) chunks ->
    exists ws self',
      feed chunks self = (ws, Ok self')
      /\ invariant self'
      /\ concat (map wav_frames ws) ++ concat (audio_buffer self')
         = concat (audio_buffer self) ++ all_samples chunks
      /\ (length ws <= length chunks)%nat
      /\ (0 <= samples_per_file self ->
          Forall (fun w => len (wav_frames w) = samples_per_file self) ws)
      /\ num_files self' = num_files self
      /\ samples_per_file self' = samples_per_file self
      /\ current_file_index self' = (current_file_index self + len ws) mod num_files self.
Proof.
  induction chunks as [|[io_ok data] rest IH]; intros self Hinv Hall.
  - exists [], self. cbn. rewrite !app_nil_r, Z.add_0_r.
    pose proof Hinv as [? ?].
    split; [reflexivity|]. split; [exact Hinv|]. split; [reflexivity|].
    split; [lia|]. split; [constructor|]. split; [reflexivity|].
    split; [reflexivity|]. symmetry. apply Z.mod_small. lia.
  - inversion Hall as [|c cs He Hrest]; subst. cbn [snd] in He.
    destruct (process_chunk_any io_ok self data Hinv He)
      as (ws1 & self1 & Hp & Hinv1 & Hnf1 & Hspf1 & Hcat1 & Hlen1 & Hall1 & Hidx1).
    destruct (IH self1 Hinv1 Hrest)
      as (ws2 & self2 & Hf & Hinv2 & Hcat2 & Hlen2 & Hall2 & Hnf2 & Hspf2 & Hidx2).
    exists (ws1 ++ ws2), self2.
    split; [exact (feed_cons _ _ _ _ _ _ _ _ Hp Hf)|].
    split; [exact Hinv2|].
    split; [|split; [|split; [|split; [|split]]]].
    + rewrite map_app, concat_app, <- app_assoc, Hcat2, app_assoc, Hcat1.
      unfold all_samples. cbn [map concat snd]. now rewrite app_assoc.
    + rewrite length_app. cbn [length]. lia.
    + intros Hpos. apply Forall_app. split; [now apply Hall1|].
      rewrite <- Hspf1. apply Hall2. now rewrite Hspf1.
    + congruence.
    + congruence.
    + rewrite Hidx2, Hidx1, Hnf1, Zplus_mod_idemp_l. f_equal.
      unfold len. rewrite length_app. lia.
Qed.

Lemma feed_conserves_witness :
  exists ws self',
    feed [(true, four_samples)] (__init__ "./debug_recordings" 3 1 2 1) = (ws, Ok self')
    /\ concat (map wav_frames ws) ++ concat (audio_buffer self') = [1; 2; 3; 4].
Proof.
  assert (H1 : invariant (__init__ "./debug_recordings" 3 1 2 1)) by (split; cbn; [reflexivity|lia]).
  assert (H2 : Forall (fun c : bool * list Byte.byte => Nat.even (length (snd c)) = true)
                 [(true, four_samples)]) by (repeat constructor).
  destruct (feed_conserves [(true, four_samples)] _ H1 H2) as (ws & self' & Hf & _ & Hcat & _).
  exists ws, self'. split; [exact Hf|exact Hcat].
Defined.

(** A failed file write is not tried again and holds nothing up: when every
    write fails, the same files are attempted with the same samples at the
    same indexes as when none fails, and the recorder ends in the same state
    (or with the same exception); the samples of a failed file are gone. *)
Theorem failed_writes_do_not_stall (chunks : list (bool * list Byte.byte)) :
  forall self,
    snd (feed (all_failing chunks) self) = snd (feed chunks self)
    /\ map wav_frames (fst (feed (all_failing chunks) self))
       = map wav_frames (fst (feed chunks self))
    /\ map wav_index (fst (feed (all_failing chunks) self))
       = map wav_index (fst (feed chunks self))
    /\ Forall (fun w => wav_ok w = false) (fst (feed (all_failing chunks) self)).
Proof.
  assert (Hstep : forall io_ok self data,
            snd (process_chunk false self data) = snd (process_chunk io_ok self data)
            /\ map wav_frames (fst (process_chunk false self data))
               = map wav_frames (fst (process_chunk io_ok self data))
            /\ map wav_index (fst (process_chunk false self data))
               = map wav_index (fst (process_chunk io_ok self data))
            /\ Forall (fun w => wav_ok w = false) (fst (process_chunk false self data))).
  { intros io_ok self data. unfold process_chunk.
    destruct (frombuffer data) as [a|e]; [|cbn; auto].
    destruct (_ <=? _); [|cbn; auto].
    unfold _write_current_buffer.
    destruct (audio_buffer (appended self a)); [cbn; auto|].
    destruct (num_files (appended self a) =? 0); [cbn; auto|].
    destruct (_ <? _); cbn; auto. }
  induction chunks as [|[io_ok data] rest IH]; intros self; [cbn; auto|].
  cbn [all_failing map snd feed]. fold (all_failing rest).
  destruct (Hstep io_ok self data) as (H1 & H2 & H3 & H4).
  destruct (process_chunk false self data) as [ws1 r1].
  destruct (process_chunk io_ok self data) as [ws2 r2].
  cbn [fst snd] in *. subst r2.
  destruct r1 as [self1|e]; [|cbn; auto].
  destruct (IH self1) as (I1 & I2 & I3 & I4).
  destruct (feed (all_failing rest) self1) as [ws1' r1'].
  destruct (feed rest self1) as [ws2' r2'].
  cbn [fst snd] in *. subst r2'.
  rewrite !map_app, H2, H3, I2, I3.
  repeat split. now apply Forall_app.
Qed.

End RecorderMore.

(** ** The capture thread over a whole run *)

Module RunFacts.
Import WakeWordDetector CaptureFacts TriggerFacts.

Section Run.
Context {M : Type} {D : Detector M} {P : Platform M}.
Implicit Types (w : world M).

Lemma start_recording_congr w1 w2 :
  capture_state w1 = capture_state w2 ->
  capture_state (start_recording w1) = capture_state (start_recording w2).
Proof.
  unfold capture_state, start_recording, is_alive. intros H. injection H as Hr Ht Hths.
  rewrite Ht, Hths.
  destruct (match recording_thread (self w2) with
            | None => true
            | Some t => negb match threads w2 !! t with Some b => b | None => false end
            end); cbn; congruence.
Qed.

Lemma stop_recording_congr joined w1 w2 :
  capture_state w1 = capture_state w2 ->
  capture_state (stop_recording joined w1) = capture_state (stop_recording joined w2).
Proof.
  unfold capture_state, stop_recording. intros H. injection H as Hr Ht Hths. cbn.
  rewrite Ht. destruct (recording_thread (self w2)); [destruct joined|]; cbn; congruence.
Qed.

Lemma worker_capture t read w :
  capture_state (_recording_worker t read w)
  = (recording (self w), recording_thread (self w),
     if is_alive w t
        && match read with
           | Ok _ => negb (recording (self w))
           | Raise e => negb (is_Exception e) || negb (recording (self w))
           end
     then <[t := false]> (threads w) else threads w).
Proof.
  unfold _recording_worker, capture_state.
  destruct (read_and_put_keeps read w) as (Hths & Hr & Hrt & _).
  destruct (is_alive w t); cbn [negb andb]; [|reflexivity].
  cbv zeta.
  destruct (match read with
            | Ok _ => negb (recording (self w))
            | Raise e => negb (is_Exception e) || negb (recording (self w))
            end); cbn; rewrite ?Hths, Hr, Hrt; reflexivity.
Qed.

Lemma worker_congr t read w1 w2 :
  capture_state w1 = capture_state w2 ->
  capture_state (_recording_worker t read w1) = capture_state (_recording_worker t read w2).
Proof.
  intros H. rewrite !worker_capture. unfold capture_state, is_alive in *.
  injection H as Hr Ht Hths. now rewrite Hr, Ht, Hths.
Qed.

Lemma replay_congr calls : forall w1 w2,
  capture_state w1 = capture_state w2 ->
  capture_state (replay calls w1) = capture_state (replay calls w2).
Proof.
  induction calls as [|c calls IH]; intros w1 w2 H; [exact H|].
  cbn. apply IH. destruct c; cbn.
  - now apply start_recording_congr.
  - now apply stop_recording_congr.
  - now apply worker_congr.
Qed.

Lemma replay_app calls1 calls2 w :
  replay (calls1 ++ calls2) w = replay calls2 (replay calls1 w).
Proof. unfold replay. apply foldl_app. Qed.

Lemma one_thread_congr w1 w2 :
  capture_state w1 = capture_state w2 -> one_thread w1 -> one_thread w2.
Proof.
  unfold capture_state, one_thread. intros H. injection H as _ Ht Hths.
  rewrite <- Ht, <- Hths. trivial.
Qed.

(** The detection branch acts on the capture side as a stop and, unless
    the video is interrupted, a start. *)
Lemma fire_capture n s w :
  capture_state (fst (fire n s w))
  = capture_state (replay (CallStop (join_in_time (plays w))
                             :: if goes_on (subprocess_run (plays w)) then [CallStart] else [])
                          w).
Proof.
  unfold fire.
  set (w1 := emit [ModelReset] _).
  assert (H1 : capture_state w1 = capture_state (stop_recording (join_in_time (plays w)) w)
               /\ plays w1 = plays w).
  { unfold w1, capture_state, stop_recording. cbn.
    now destruct (recording_thread (self w)); [destruct (join_in_time _)|]. }
  destruct H1 as [Hcap Hpl]. clearbody w1.
  pose proof (play_video_spec w1) as (_ & Pres & Pself & Pths & _).
  rewrite Hpl in Pres.
  destruct (play_video w1) as [w2 res]. cbn [fst snd] in *. subst res.
  assert (Hcap2 : capture_state w2 = capture_state (stop_recording (join_in_time (plays w)) w))
    by (rewrite <- Hcap; unfold capture_state; now rewrite Pself, Pths).
  destruct (goes_on (subprocess_run (plays w))) eqn:Hgo.
  - cbn [fst replay foldl capture_step].
    change (capture_state (emit [StartRecording] (start_recording (say MsgListeningAgain w2))))
      with (capture_state (start_recording (say MsgListeningAgain w2))).
    now apply start_recording_congr.
  - destruct (subprocess_run (plays w)) as [[]|e]; [discriminate|]. exact Hcap2.
Qed.

Lemma check_results_capture (p : prediction) : forall w,
  exists calls,
    capture_state (fst (check_results p w)) = capture_state (replay calls w).
Proof.
  induction p as [|[n s] p IH]; intros w; [now exists []|].
  cbn [check_results]. destruct (threshold (self w) <? s)%float; [|apply IH].
  pose proof (fire_capture n s w) as Hf.
  destruct (fire n s w) as [w1 [[]|e]]; cbn [fst] in *; [|eauto].
  destruct (IH w1) as (calls & Hc).
  exists ((CallStop (join_in_time (plays w))
             :: if goes_on (subprocess_run (plays w)) then [CallStart] else [])
            ++ calls).
  rewrite replay_app, Hc. now apply replay_congr.
Qed.

Lemma record_chunk_capture (f : frame) w :
  capture_state (fst (record_chunk f w)) = capture_state w.
Proof.
  unfold record_chunk. destruct (debug_recorder (self w)) as [rec|]; [|reflexivity].
  now destruct (RollingAudioRecorder.process_chunk _ rec f) as [ws [rec'|e]].
Qed.

Lemma loop_body_capture w :
  exists calls, capture_state (fst (loop_body w)) = capture_state (replay calls w).
Proof.
  unfold loop_body. destruct (audio_queue (self w)) as [|f rest]; [now exists []|].
  set (w0 := with_self (set_audio_queue rest) w).
  assert (H0 : capture_state w0 = capture_state w) by reflexivity. clearbody w0.
  pose proof (record_chunk_capture f w0) as H1.
  destruct (record_chunk f w0) as [w1 [[]|e]]; cbn [fst] in *;
    [|exists []; cbn; congruence].
  destruct (frombuffer f) as [a|e]; [|exists []; cbn; congruence].
  destruct (model (self w1)) as [m|]; [|exists []; cbn; congruence].
  destruct (predict m a) as [[p|e] m'];
    [|exists []; cbn [fst replay foldl]; rewrite <- H0, <- H1; reflexivity].
  set (w2 := emit _ _).
  assert (H2 : capture_state w2 = capture_state w) by (rewrite <- H0, <- H1; reflexivity).
  clearbody w2. destruct (check_results_capture p w2) as (calls & Hc).
  exists calls. rewrite Hc. now apply replay_congr.
Qed.

Lemma cleanup_capture w :
  capture_state (cleanup w) = capture_state (stop_recording (join_in_time (plays w)) w).
Proof. reflexivity. Qed.

Lemma step_capture k w :
  exists calls, capture_state (fst (step k w)) = capture_state (replay calls w).
Proof.
  destruct k as [t read| |]; cbn [step].
  - exists [WorkerTurn t read]. reflexivity.
  - unfold iteration. destruct (loop_body_capture w) as (calls & Hc).
    destruct (loop_body w) as [w' [[]|e]]; cbn [fst] in *; [eauto|].
    assert (Hcl : forall x, capture_state x = capture_state w' ->
                    exists calls', capture_state (cleanup x) = capture_state (replay calls' w)).
    { intros x Hx. exists (calls ++ [CallStop (join_in_time (plays x))]).
      rewrite replay_app, cleanup_capture. cbn. apply stop_recording_congr. congruence. }
    destruct e; cbn [fst interrupt]; first [now apply Hcl|eauto].
  - exists [CallStop (join_in_time (plays w))]. cbn [interrupt fst]. rewrite cleanup_capture.
    now apply stop_recording_congr.
Qed.

Lemma exec_capture schedule : forall w,
  exists calls, capture_state (fst (exec schedule w)) = capture_state (replay calls w).
Proof.
  induction schedule as [|k rest IH]; intros w; [now exists []|].
  cbn [exec]. destruct (step_capture k w) as (calls1 & H1).
  destruct (step k w) as [w1 st]. cbn [fst] in *.
  destruct st; [|eauto|eauto].
  destruct (IH w1) as (calls2 & H2). exists (calls1 ++ calls2).
  rewrite replay_app, H2. now apply replay_congr.
Qed.

Lemma alive_le_one w : one_thread w -> (alive_count w <= 1)%nat.
Proof.
  intros Hw. unfold alive_count.
  destruct (recording_thread (self w)) as [t|] eqn:Ht.
  - destruct (threads w !! t) as [[]|] eqn:Hl.
    + rewrite (single_thread_alive _ t); [lia| |exact Hl].
      intros i Hi. specialize (Hw i Hi). congruence.
    + rewrite no_thread_alive; [cbn; lia|].
      intros i Hi. specialize (Hw i Hi). congruence.
    + rewrite no_thread_alive; [cbn; lia|].
      intros i Hi. specialize (Hw i Hi). congruence.
  - rewrite no_thread_alive; [cbn; lia|].
    intros i Hi. specialize (Hw i Hi). congruence.
Qed.

Lemma one_thread_exec schedule w : one_thread w -> one_thread (fst (exec schedule w)).
Proof.
  intros Hw. destruct (exec_capture schedule w) as (calls & Hc).
  apply (one_thread_congr (replay calls w)); [now symmetry|].
  now apply one_thread_replay.
Qed.

(** At most one capture thread is alive at any point of any run: whatever
    the object looked like before, as long as no thread of its own was
    running, after [run] has gone through any schedule every live thread is
    the one [self.recording_thread] names. *)
Theorem one_capture_thread (s : WakeWordDetector M) (schedule : list tick) :
  let w' := fst (run schedule (boot s)) in
  one_thread w' /\ (alive_count w' <= 1)%nat.
Proof.
  cbv zeta.
  assert (H : one_thread (fst (run schedule (boot s)))).
  { unfold run. apply one_thread_exec.
    apply (one_thread_congr (start_recording (boot s))); [reflexivity|].
    apply one_thread_start, one_thread_boot. }
  split; [exact H|now apply alive_le_one].
Qed.

Lemma stopped_none_alive w : one_thread w -> alive_count (stop_recording true w) = 0%nat.
Proof.
  intros Hw. unfold alive_count. rewrite no_thread_alive; [reflexivity|].
  intros i Hi. unfold stop_recording in Hi. cbn in Hi.
  destruct (recording_thread (self w)) as [t|] eqn:Ht; cbn in Hi.
  - pose proof (lookup_killed _ _ _ Hi) as Hold. specialize (Hw i Hold).
    assert (i = t) as -> by congruence.
    destruct (decide (t < length (threads w))%nat).
    + rewrite list_lookup_insert_eq in Hi by assumption. discriminate.
    + apply lookup_lt_Some in Hold. lia.
  - specialize (Hw i Hi). congruence.
Qed.

(** Every way out of the loop goes through [cleanup]. *)
Lemma step_exit k w :
  snd (step k w) <> Listening ->
  exists w'',
    fst (step k w) = cleanup w''
    /\ (exists calls, capture_state w'' = capture_state (replay calls w))
    /\ (snd (step k w) = Returned -> exists out, stdout w'' = out ++ [MsgShuttingDown])
    /\ exists tr, trace w'' = trace w ++ tr.
Proof.
  destruct k as [t read| |]; cbn [step].
  - intros H. now destruct H.
  - unfold iteration. destruct (loop_body_capture w) as (calls & Hc).
    destruct (loop_body_protocol w) as (tr & Htr & _).
    destruct (loop_body w) as [w' [[]|e]]; cbn [fst snd] in *; [intros H; now destruct H|].
    destruct e; cbn [fst snd interrupt]; intros H; try (now destruct H);
      try (exists w'; split; [reflexivity|]; split; [eauto|]; split; [discriminate|eauto]).
    exists (say MsgShuttingDown w'). split; [reflexivity|]. split; [eauto|].
    split; [intros _; now exists (stdout w')|eauto].
  - intros _. exists (say MsgShuttingDown w). split; [reflexivity|].
    split; [now exists []|]. split; [intros _; now exists (stdout w)|].
    exists []. cbn. now rewrite app_nil_r.
Qed.

Lemma exec_exit schedule : forall w,
  snd (exec schedule w) <> Listening ->
  exists w'',
    fst (exec schedule w) = cleanup w''
    /\ (exists calls, capture_state w'' = capture_state (replay calls w))
    /\ (snd (exec schedule w) = Returned -> exists out, stdout w'' = out ++ [MsgShuttingDown])
    /\ exists tr, trace w'' = trace w ++ tr.
Proof.
  induction schedule as [|k rest IH]; intros w; [intros H; now destruct H|].
  cbn [exec]. pose proof (step_exit k w) as Hstep.
  destruct (step_capture k w) as (calls1 & Hc1).
  destruct (step_protocol k w) as (tr1 & Htr1 & _).
  destruct (step k w) as [w1 st]. cbn [fst snd] in *.
  destruct st.
  - intros Hne. destruct (IH w1 Hne) as (w'' & Hw & (calls2 & Hc2) & Hret & tr2 & Htr2).
    exists w''. split; [exact Hw|]. split; [|split; [exact Hret|]].
    + exists (calls1 ++ calls2). rewrite replay_app, Hc2. now apply replay_congr.
    + exists (tr1 ++ tr2). now rewrite Htr2, Htr1, app_assoc.
  - intros _. apply Hstep. discriminate.
  - intros _. apply Hstep. discriminate.
Qed.

Lemma cleanup_plays w : plays (cleanup w) = plays w.
Proof.
  unfold cleanup, stop_recording. cbn.
  now destruct (recording_thread (self w)); [destruct (join_in_time _)|].
Qed.

(** However [run] is left, by Ctrl-C or by an error that escapes the loop,
    [cleanup] has run: the trace ends with the stop of the capture, the
    closing of the stream and the release of PyAudio, and the event is
    cleared. When the join of [cleanup] has returned because the worker had
    left its loop, no capture thread is alive. When it has timed out, the
    only thread that can still be alive is the one [self.recording_thread]
    names, and it ends with the turn it is in. Leaving by Ctrl-C is
    announced. *)
Theorem run_exit_cleans_up (s : WakeWordDetector M) (schedule : list tick) :
  snd (run schedule (boot s)) <> Listening ->
  let w' := fst (run schedule (boot s)) in
  (exists tr, trace w' = tr ++ cleanup_ops)
  /\ recording (self w') = false
  /\ (join_in_time (plays w') = true -> alive_count w' = 0%nat)
  /\ (forall t read,
        is_alive w' t = true ->
        recording_thread (self w') = Some t
        /\ alive_count (_recording_worker t read w') = 0%nat)
  /\ (snd (run schedule (boot s)) = Returned ->
      exists out, stdout w' = out ++ [MsgShuttingDown]).
Proof.
  intros Hne. cbv zeta. unfold run in *.
  set (w0 := emit [StartRecording] (start_recording (boot s))) in *.
  assert (H0 : one_thread w0).
  { apply (one_thread_congr (start_recording (boot s))); [reflexivity|].
    apply one_thread_start, one_thread_boot. }
  destruct (exec_exit schedule w0 Hne) as (w'' & Hw & (calls & Hc) & Hret & _).
  rewrite Hw.
  assert (H'' : one_thread w'').
  { apply (one_thread_congr (replay calls w0)); [now symmetry|].
    now apply one_thread_replay. }
  assert (Hone : one_thread (cleanup w'')).
  { apply (one_thread_congr (stop_recording (join_in_time (plays w'')) w''));
      [now rewrite cleanup_capture|now apply one_thread_stop]. }
  assert (Hrec : recording (self (cleanup w'')) = false).
  { unfold cleanup, stop_recording. cbn.
    now destruct (recording_thread (self w'')); [destruct (join_in_time _)|]. }
  split; [exists (trace w''); apply cleanup_trace|].
  split; [exact Hrec|].
  split; [|split].
  - rewrite cleanup_plays. intros Hj.
    pose proof (stopped_none_alive w'' H'') as Hnone.
    unfold alive_count in *.
    replace (threads (cleanup w'')) with (threads (stop_recording true w'')); [exact Hnone|].
    unfold cleanup. cbn. now rewrite Hj.
  - intros t read Ha. pose proof Ha as Hl. apply is_alive_true in Hl.
    split; [now apply Hone|].
    unfold alive_count. rewrite no_thread_alive; [reflexivity|].
    intros i Hi.
    assert (Hold : threads (cleanup w'') !! i = Some true).
    { destruct (worker_keeps t read (cleanup w'')) as ([Hths|Hths] & _);
        rewrite Hths in Hi; [exact Hi|now apply lookup_killed in Hi]. }
    assert (i = t) as ->.
    { pose proof (Hone i Hold) as H1. pose proof (Hone t Hl) as H2. congruence. }
    revert Hi. unfold _recording_worker. rewrite Ha. cbn [negb].
    destruct (read_and_put_keeps read (cleanup w'')) as (Hths & _).
    rewrite Hrec. cbv zeta.
    replace (match read with
             | Ok _ => negb false
             | Raise e => negb (is_Exception e) || negb false
             end) with true by (destruct read; cbn; now rewrite ?orb_true_r).
    cbn. rewrite Hths, list_lookup_insert_eq; [discriminate|].
    now apply lookup_lt_Some in Hl.
  - intros Hr. destruct (Hret Hr) as (out & Hout). exists out. rewrite <- Hout.
    unfold cleanup, stop_recording. cbn.
    now destruct (recording_thread (self w'')); [destruct (join_in_time _)|].
Qed.

(** *** The queue *)

Lemma check_results_rest (p : prediction) : forall w,
  let w' := fst (check_results p w) in
  (audio_queue (self w') = audio_queue (self w) \/ audio_queue (self w') = [])
  /\ debug_recorder (self w') = debug_recorder (self w).
Proof.
  induction p as [|[n s] p IH]; intros w; cbv zeta; [cbn; auto|].
  cbn [check_results]. destruct (threshold (self w) <? s)%float; [|apply IH].
  pose proof (fire_spec n s w) as (_ & _ & _ & Hrec & _ & Hq & _).
  destruct (fire n s w) as [w1 [[]|e]]; cbn [fst] in *; [|auto].
  destruct (IH w1) as ([Hq1|Hq1] & Hrec1); split; try congruence; right; congruence.
Qed.

Lemma scored_cons a r tr : scored (Scored a r :: tr) = a :: scored tr.
Proof. reflexivity. Qed.

(** One turn of the main thread takes the frame at the head of the queue,
    scores nothing or that frame, and leaves the rest of the queue or
    nothing. *)
Lemma loop_body_pop w :
  let w' := fst (loop_body w) in
  exists tr,
    trace w' = trace w ++ tr
    /\ match audio_queue (self w) with
       | [] => scored tr = [] /\ audio_queue (self w') = []
       | f :: rest =>
           (scored tr = [] \/ scored tr = [RollingAudioRecorder.samples_of f])
           /\ (audio_queue (self w') = rest \/ audio_queue (self w') = [])
       end.
Proof.
  cbv zeta. unfold loop_body.
  destruct (audio_queue (self w)) as [|f rest] eqn:Hq.
  { exists []. cbn. rewrite app_nil_r. auto. }
  set (w0 := with_self (set_audio_queue rest) w).
  assert (H0 : trace w0 = trace w /\ audio_queue (self w0) = rest) by now cbn.
  destruct H0 as [Htr0 Hq0]. clearbody w0.
  destruct (record_chunk_spec f w0) as (recs & Htr1 & Hquiet & _ & _ & Hq1 & _).
  apply Forall_quiet_not_scored, quiet_scored in Hquiet.
  destruct (record_chunk f w0) as [w1 [[]|e]]; cbn [fst snd] in *.
  2: { exists recs. rewrite Htr1, Htr0. split; [reflexivity|]. split; [auto|left; congruence]. }
  unfold RollingAudioRecorder.samples_of.
  destruct (frombuffer f) as [a|e].
  2: { exists recs. cbn [fst]. rewrite Htr1, Htr0. split; [reflexivity|].
       split; [auto|left; congruence]. }
  destruct (model (self w1)) as [m|].
  2: { exists recs. cbn [fst]. rewrite Htr1, Htr0. split; [reflexivity|].
       split; [auto|left; congruence]. }
  destruct (predict m a) as [[p|e] m'].
  - set (w2 := emit [Scored a (Ok p)] _).
    assert (H2 : trace w2 = trace w1 ++ [Scored a (Ok p)]
                 /\ audio_queue (self w2) = audio_queue (self w1)) by now cbn.
    destruct H2 as [Htr2 Hq2]. clearbody w2.
    destruct (check_results_spec p w2) as (tr & Htr & _ & Hns & _).
    pose proof (check_results_rest p w2) as ([Hq3|Hq3] & _);
      exists (recs ++ Scored a (Ok p) :: tr);
      (split; [rewrite Htr, Htr2, Htr1, Htr0, <- !app_assoc; reflexivity|]);
      (split; [right; now rewrite scored_app, Hquiet, scored_cons, (quiet_scored tr)|]);
      [left; congruence|right; exact Hq3].
  - exists (recs ++ [Scored a (Raise e)]). cbn [fst].
    split; [cbn; now rewrite Htr1, Htr0, <- !app_assoc|].
    split; [right; now rewrite scored_app, Hquiet|left; cbn; congruence].
Qed.

Lemma cleanup_queue w : audio_queue (self (cleanup w)) = audio_queue (self w).
Proof. unfold cleanup, stop_recording. cbn. now destruct (recording_thread (self w)); [destruct (join_in_time _)|]. Qed.

Lemma cleanup_recorder w : debug_recorder (self (cleanup w)) = debug_recorder (self w).
Proof. unfold cleanup, stop_recording. cbn. now destruct (recording_thread (self w)); [destruct (join_in_time _)|]. Qed.

Lemma iteration_pop w :
  let w' := fst (iteration w) in
  exists tr,
    trace w' = trace w ++ tr
    /\ match audio_queue (self w) with
       | [] => scored tr = [] /\ audio_queue (self w') = []
       | f :: rest =>
           (scored tr = [] \/ scored tr = [RollingAudioRecorder.samples_of f])
           /\ (audio_queue (self w') = rest \/ audio_queue (self w') = [])
       end.
Proof.
  cbv zeta. destruct (loop_body_pop w) as (tr & Htr & Hpop).
  destruct (iteration_spec w) as (tr0 & Hlb & Hit & _).
  rewrite Htr in Hlb. apply app_inv_head in Hlb. subst tr0.
  assert (Hq : audio_queue (self (fst (iteration w)))
               = audio_queue (self (fst (loop_body w)))).
  { unfold iteration. destruct (loop_body w) as [w' [[]|e]]; [reflexivity|].
    destruct e; cbn [fst interrupt]; rewrite ?cleanup_queue; reflexivity. }
  rewrite Hq.
  exists (tr ++ if stays (snd (loop_body w)) then [] else cleanup_ops).
  split; [exact Hit|].
  assert (Hsc : scored (tr ++ if stays (snd (loop_body w)) then [] else cleanup_ops)
                = scored tr).
  { rewrite scored_app. destruct (stays _); cbn; now rewrite app_nil_r. }
  rewrite Hsc. exact Hpop.
Qed.

Lemma worker_queue t read w :
  trace (_recording_worker t read w) = trace w
  /\ debug_recorder (self (_recording_worker t read w)) = debug_recorder (self w)
  /\ (audio_queue (self (_recording_worker t read w)) = audio_queue (self w)
      \/ exists f, read = Ok f
           /\ (length (audio_queue (self w)) < maxsize)%nat
           /\ audio_queue (self (_recording_worker t read w)) = audio_queue (self w) ++ [f]).
Proof.
  destruct (worker_keeps t read w) as (_ & _ & _ & Hd & _ & Htr & _ & Hq). auto.
Qed.

(** The queue never holds more than [maxsize] frames: a frame that finds
    it full is dropped. *)
Theorem queue_bounded (schedule : list tick) : forall w,
  (length (audio_queue (self w)) <= maxsize)%nat ->
  (length (audio_queue (self (fst (exec schedule w)))) <= maxsize)%nat.
Proof.
  induction schedule as [|k rest IH]; intros w Hw; [exact Hw|].
  cbn [exec].
  assert (Hstep : (length (audio_queue (self (fst (step k w)))) <= maxsize)%nat).
  { destruct k as [t read| |]; cbn [step fst].
    - destruct (worker_queue t read w) as (_ & _ & [->|(f & _ & Hlt & ->)]); [exact Hw|].
      rewrite length_app. cbn. lia.
    - destruct (iteration_pop w) as (tr & _ & Hpop).
      destruct (audio_queue (self w)) as [|f q].
      + destruct Hpop as [_ ->]. cbn. lia.
      + destruct Hpop as [_ [-> | ->]]; cbn in *; lia.
    - unfold interrupt. cbn [fst]. now rewrite cleanup_queue. }
  destruct (step k w) as [w1 st]. cbn [fst] in *.
  destruct st; [now apply IH|exact Hstep|exact Hstep].
Qed.

Lemma sublist_map {A B} (f : A -> B) (l k : list A) :
  sublist l k -> sublist (map f l) (map f k).
Proof.
  induction 1; cbn; [constructor|now apply sublist_skip|now apply sublist_cons].
Qed.

(** Frames are scored in the order in which they were captured, each at
    most once: what a run has scored, followed by what is still in the
    queue, is a subsequence of what was in the queue at the start followed
    by what the worker turns have read since. *)
Theorem scored_in_capture_order (schedule : list tick) : forall w,
  exists tr,
    trace (fst (exec schedule w)) = trace w ++ tr
    /\ sublist
         (scored tr
          ++ map RollingAudioRecorder.samples_of (audio_queue (self (fst (exec schedule w)))))
         (map RollingAudioRecorder.samples_of (audio_queue (self w) ++ captured schedule)).
Proof.
  induction schedule as [|k rest IH]; intros w.
  - exists []. cbn. now rewrite !app_nil_r.
  - cbn [exec]. destruct k as [t read| |]; cbn [step].
    + destruct (worker_queue t read w) as (Htr & _ & Hq).
      destruct (IH (_recording_worker t read w)) as (tr & Htr' & Hsub).
      exists tr. split; [now rewrite Htr', Htr|].
      etransitivity; [exact Hsub|].
      destruct Hq as [->|(f & -> & _ & ->)].
      * apply sublist_map, sublist_app; [reflexivity|].
        destruct read as [f|e]; cbn; [apply sublist_cons|]; reflexivity.
      * cbn. now rewrite <- app_assoc.
    + destruct (iteration_pop w) as (tr1 & Htr1 & Hpop).
      change (captured (Consumer :: rest)) with (captured rest).
      assert (Hhead : forall q',
                audio_queue (self (fst (iteration w))) = q' ->
                sublist (scored tr1 ++ map RollingAudioRecorder.samples_of q')
                        (map RollingAudioRecorder.samples_of (audio_queue (self w)))).
      { intros q' Hq'. rewrite Hq' in Hpop.
        destruct (audio_queue (self w)) as [|f q].
        - destruct Hpop as [-> ->]. reflexivity.
        - destruct Hpop as [[-> | ->] [-> | ->]]; cbn.
          + apply sublist_cons. reflexivity.
          + apply sublist_nil_l.
          + reflexivity.
          + apply sublist_skip, sublist_nil_l. }
      destruct (iteration w) as [w1 st]. cbn [fst] in *.
      destruct st.
      * destruct (IH w1) as (tr2 & Htr2 & Hsub).
        exists (tr1 ++ tr2). split; [now rewrite Htr2, Htr1, app_assoc|].
        rewrite scored_app, <- app_assoc.
        etransitivity; [apply sublist_app; [reflexivity|exact Hsub]|].
        rewrite !map_app, app_assoc.
        apply sublist_app; [|reflexivity].
        now apply Hhead.
      * exists tr1. split; [exact Htr1|].
        rewrite map_app. etransitivity; [now apply Hhead|]. apply sublist_inserts_r.
        reflexivity.
      * exists tr1. split; [exact Htr1|].
        rewrite map_app. etransitivity; [now apply Hhead|]. apply sublist_inserts_r.
        reflexivity.
    + exists cleanup_ops. destruct (interrupt_spec w) as [Htr _].
      split; [exact Htr|]. unfold interrupt. cbn [fst].
      rewrite cleanup_queue. cbn. rewrite map_app. apply sublist_inserts_r. reflexivity.
Qed.

End Run.
End RunFacts.

(** ** Runs of the scenarios, from start to exit *)

Module RunScenarioFacts.
Import WakeWordDetector RunFacts Scenarios.

Lemma run_exit_cleans_up_witness :
  let out := run (D := alpha_detector) (P := plain_platform)
               [Producer 0 (Ok (frame_of Byte.x01)); Consumer; Interrupt]
               (boot (self (started plain_platform ["alpha"%string]))) in
  snd out = Returned
  /\ alive_count (fst out) = 0%nat
  /\ recording (self (fst out)) = false.
Proof.
  assert (Hne : snd (run (D := alpha_detector) (P := plain_platform)
                       [Producer 0 (Ok (frame_of Byte.x01)); Consumer; Interrupt]
                       (boot (self (started plain_platform ["alpha"%string]))))
                <> Listening) by (vm_compute; discriminate).
  destruct (run_exit_cleans_up (D := alpha_detector) (P := plain_platform) _ _ Hne)
    as (_ & Hrec & Halive & _).
  split; [reflexivity|]. split; [exact (Halive eq_refl)|exact Hrec].
Defined.

Lemma queue_bounded_witness :
  (length (audio_queue (self (fst (exec (D := alpha_detector) (P := plain_platform)
                                    queued_schedule
                                    (waiting plain_platform ["alpha"%string]
                                       (frame_of Byte.x01))))))
   <= maxsize)%nat.
Proof.
  apply (queue_bounded (D := alpha_detector) (P := plain_platform)).
  vm_compute. lia.
Defined.

End RunScenarioFacts.

(** ** The debug recorder inside the loop *)

Module RecordingFacts.
Import WakeWordDetector RecorderFacts RecorderMore TriggerFacts RunFacts.

Lemma recorded_app tr1 tr2 : recorded (tr1 ++ tr2) = recorded tr1 ++ recorded tr2.
Proof. apply omap_app. Qed.

Lemma recorded_map ws : recorded (map Recorded ws) = ws.
Proof. induction ws as [|f ws IH]; [reflexivity|]. cbn. f_equal. exact IH. Qed.

Lemma scored_map ws : scored (map Recorded ws) = [].
Proof. induction ws as [|f ws IH]; [reflexivity|exact IH]. Qed.

Lemma fired_recorded n s q r : recorded (fired n s q r) = [] /\ scored (fired n s q r) = [].
Proof. unfold fired. now destruct (goes_on r). Qed.

Section Recording.
Context {M : Type} {D : Detector M} {P : Platform M}.
Implicit Types (w : world M).

Lemma check_results_recorded (p : prediction) : forall w,
  exists tr,
    trace (fst (check_results p w)) = trace w ++ tr
    /\ recorded tr = [] /\ scored tr = []
    /\ debug_recorder (self (fst (check_results p w))) = debug_recorder (self w)
    /\ (model (self w) <> None -> model (self (fst (check_results p w))) <> None).
Proof.
  induction p as [|[n s] p IH]; intros w.
  - exists []. cbn. now rewrite app_nil_r.
  - cbn [check_results]. destruct (threshold (self w) <? s)%float; [|apply IH].
    pose proof (fire_spec n s w) as (Ftr & _ & _ & Frec & Fmod & _).
    destruct (fired_recorded n s (audio_queue (self w)) (subprocess_run (plays w)))
      as [Hr Hs].
    assert (Hm : model (self w) <> None -> model (self (fst (fire n s w))) <> None).
    { rewrite Fmod. now destruct (model (self w)). }
    destruct (fire n s w) as [w1 [[]|e]]; cbn [fst] in *.
    + destruct (IH w1) as (tr & Htr & Hr' & Hs' & Hrec & Hmod).
      exists (fired n s (audio_queue (self w)) (subprocess_run (plays w)) ++ tr).
      rewrite Htr, Ftr, <- app_assoc, recorded_app, scored_app, Hr, Hs, Hr', Hs', Hrec, Frec.
      repeat split; auto.
    + exists (fired n s (audio_queue (self w)) (subprocess_run (plays w))). auto.
Qed.

(** One pass through the loop body: what the recorder has taken in is
    what has been handed to the model. *)
Lemma loop_body_recorded w rec :
  debug_recorder (self w) = Some rec -> RollingAudioRecorder.invariant rec ->
  model (self w) <> None ->
  exists tr rec',
    trace (fst (loop_body w)) = trace w ++ tr
    /\ debug_recorder (self (fst (loop_body w))) = Some rec'
    /\ RollingAudioRecorder.invariant rec'
    /\ model (self (fst (loop_body w))) <> None
    /\ concat (map RollingAudioRecorder.wav_frames (recorded tr))
         ++ concat (RollingAudioRecorder.audio_buffer rec')
       = concat (RollingAudioRecorder.audio_buffer rec) ++ concat (scored tr).
Proof.
  intros Hrec Hinv Hmod. unfold loop_body.
  destruct (audio_queue (self w)) as [|f rest].
  { exists [], rec. cbn. now rewrite !app_nil_r. }
  unfold record_chunk. cbn [self with_self set_audio_queue debug_recorder].
  rewrite Hrec.
  destruct (Nat.even (length f)) eqn:He.
  - destruct (process_chunk_any (wave_write_ok (writes (with_self (set_audio_queue rest) w)))
                rec f Hinv He)
      as (ws & rec1 & Hp & Hinv1 & _ & _ & Hcat & _).
    rewrite Hp, (frombuffer_even f He).
    cbn [self with_self set_debug_recorder set_audio_queue count_writes emit model].
    destruct (model (self w)) as [m|]; [|contradiction].
    destruct (predict m (RollingAudioRecorder.samples_of f)) as [[p|e] m'].
    + match goal with |- context [check_results p ?x] => set (w2 := x) end.
      assert (H2 : trace w2 = trace w ++ map Recorded ws
                                ++ [Scored (RollingAudioRecorder.samples_of f) (Ok p)]
                   /\ debug_recorder (self w2) = Some rec1
                   /\ model (self w2) <> None).
      { unfold w2. cbn. rewrite <- app_assoc. now split. }
      destruct H2 as (Htr2 & Hrec2 & Hmod2). clearbody w2.
      destruct (check_results_recorded p w2) as (tr & Htr & Hr & Hs & Hrec3 & Hmod3).
      exists (map Recorded ws ++ Scored (RollingAudioRecorder.samples_of f) (Ok p) :: tr), rec1.
      split; [rewrite Htr, Htr2, <- !app_assoc; reflexivity|].
      split; [now rewrite Hrec3|]. split; [exact Hinv1|]. split; [now apply Hmod3|].
      rewrite recorded_app, scored_app, recorded_map, scored_map.
      rewrite scored_cons.
      change (recorded (Scored (RollingAudioRecorder.samples_of f) (Ok p) :: tr))
        with (recorded tr).
      rewrite Hr, Hs. cbn. now rewrite !app_nil_r.
    + exists (map Recorded ws ++ [Scored (RollingAudioRecorder.samples_of f) (Raise e)]), rec1.
      cbn [fst trace emit self with_self set_model debug_recorder model].
      split; [cbn; now rewrite <- !app_assoc|]. split; [reflexivity|]. split; [exact Hinv1|].
      split; [discriminate|].
      rewrite recorded_app, scored_app, recorded_map, scored_map. cbn.
      now rewrite !app_nil_r.
  - rewrite process_chunk_odd by exact He. cbn.
    exists [], rec. rewrite !app_nil_r. auto.
Qed.

Lemma cleanup_model w : model (self (cleanup w)) = model (self w).
Proof. unfold cleanup, stop_recording. cbn. now destruct (recording_thread (self w)); [destruct (join_in_time _)|]. Qed.

Lemma worker_model t read w :
  model (self (_recording_worker t read w)) = model (self w).
Proof. apply CaptureFacts.worker_keeps. Qed.

Lemma step_recorded k w rec :
  debug_recorder (self w) = Some rec -> RollingAudioRecorder.invariant rec ->
  model (self w) <> None ->
  exists tr rec',
    trace (fst (step k w)) = trace w ++ tr
    /\ debug_recorder (self (fst (step k w))) = Some rec'
    /\ RollingAudioRecorder.invariant rec'
    /\ model (self (fst (step k w))) <> None
    /\ concat (map RollingAudioRecorder.wav_frames (recorded tr))
         ++ concat (RollingAudioRecorder.audio_buffer rec')
       = concat (RollingAudioRecorder.audio_buffer rec) ++ concat (scored tr).
Proof.
  intros Hrec Hinv Hmod. destruct k as [t read| |]; cbn [step fst].
  - destruct (worker_queue t read w) as (Htr & Hr & _).
    exists [], rec. rewrite Htr, Hr, worker_model, !app_nil_r. cbn. rewrite ?app_nil_r. auto.
  - destruct (loop_body_recorded w rec Hrec Hinv Hmod)
      as (tr & rec' & Htr & Hrec' & Hinv' & Hmod' & Hcat).
    assert (Hclean : forall x,
              trace x = trace (fst (loop_body w)) -> self x = self (fst (loop_body w)) ->
              exists tr0 rec0,
                trace (cleanup x) = trace w ++ tr0
                /\ debug_recorder (self (cleanup x)) = Some rec0
                /\ RollingAudioRecorder.invariant rec0
                /\ model (self (cleanup x)) <> None
                /\ concat (map RollingAudioRecorder.wav_frames (recorded tr0))
                     ++ concat (RollingAudioRecorder.audio_buffer rec0)
                   = concat (RollingAudioRecorder.audio_buffer rec) ++ concat (scored tr0)).
    { intros x Hx Hs. exists (tr ++ cleanup_ops), rec'.
      rewrite cleanup_trace, cleanup_recorder, cleanup_model, Hx, Hs, Htr, <- app_assoc.
      rewrite recorded_app, scored_app. cbn. rewrite !app_nil_r. auto. }
    unfold iteration.
    destruct (loop_body w) as [w' [[]|e]]; cbn [fst] in *; [eauto 10|].
    destruct e; cbn [fst interrupt]; try (now apply Hclean); eauto 10.
  - unfold interrupt. cbn [fst].
    exists cleanup_ops, rec.
    rewrite cleanup_trace, cleanup_recorder, cleanup_model. cbn. rewrite !app_nil_r. auto.
Qed.

(** The debug recording is the audio the model has been given: in a run
    with a recorder that keeps its invariant and with a model loaded, the
    recorder keeps its invariant, and the files written during the run, read
    in order, followed by the samples still buffered, are the samples that
    were buffered before followed by the arrays handed to [predict], in
    order. *)
Theorem recording_is_scored_audio (schedule : list tick) : forall w rec,
  debug_recorder (self w) = Some rec -> RollingAudioRecorder.invariant rec ->
  model (self w) <> None ->
  exists tr rec',
    trace (fst (exec schedule w)) = trace w ++ tr
    /\ debug_recorder (self (fst (exec schedule w))) = Some rec'
    /\ RollingAudioRecorder.invariant rec'
    /\ concat (map RollingAudioRecorder.wav_frames (recorded tr))
         ++ concat (RollingAudioRecorder.audio_buffer rec')
       = concat (RollingAudioRecorder.audio_buffer rec) ++ concat (scored tr).
Proof.
  induction schedule as [|k rest IH]; intros w rec Hrec Hinv Hmod.
  - exists [], rec. cbn. now rewrite !app_nil_r.
  - cbn [exec].
    destruct (step_recorded k w rec Hrec Hinv Hmod)
      as (tr1 & rec1 & Htr1 & Hrec1 & Hinv1 & Hmod1 & Hcat1).
    destruct (step k w) as [w1 st]. cbn [fst] in *.
    destruct st; [|exists tr1, rec1; auto|exists tr1, rec1; auto].
    destruct (IH w1 rec1 Hrec1 Hinv1 Hmod1) as (tr2 & rec2 & Htr2 & Hrec2 & Hinv2 & Hcat2).
    exists (tr1 ++ tr2), rec2.
    split; [now rewrite Htr2, Htr1, app_assoc|]. split; [exact Hrec2|].
    split; [exact Hinv2|].
    rewrite recorded_app, scored_app, map_app, !concat_app, <- app_assoc, Hcat2.
    now rewrite !app_assoc, Hcat1.
Qed.

End Recording.
End RecordingFacts.

Module RecordingScenarioFacts.
Import WakeWordDetector RecordingFacts Scenarios.

Lemma recording_is_scored_audio_witness :
  exists tr rec',
    trace (fst (exec (D := alpha_detector) (P := plain_platform) queued_schedule
                  (taping plain_platform ["alpha"%string] (frame_of Byte.x01))))
    = trace (taping plain_platform ["alpha"%string] (frame_of Byte.x01)) ++ tr
    /\ concat (map RollingAudioRecorder.wav_frames (recorded tr))
         ++ concat (RollingAudioRecorder.audio_buffer rec')
       = concat (scored tr).
Proof.
  assert (Hinv : RollingAudioRecorder.invariant
                   (RollingAudioRecorder.__init__ "./debug_recordings" 3 1 2 1))
    by (split; cbn; [reflexivity|lia]).
  assert (Hmod : model (self (taping plain_platform ["alpha"%string] (frame_of Byte.x01)))
                 <> None) by (vm_compute; discriminate).
  destruct (recording_is_scored_audio (D := alpha_detector) (P := plain_platform)
              queued_schedule
              (taping plain_platform ["alpha"%string] (frame_of Byte.x01))
              (RollingAudioRecorder.__init__ "./debug_recordings" 3 1 2 1)
              eq_refl Hinv Hmod)
    as (tr & rec' & Htr & _ & _ & Hcat).
  exists tr, rec'. split; [exact Htr|exact Hcat].
Defined.

End RecordingScenarioFacts.

(** ** Restarting the capture *)

Module CaptureMore.
Import WakeWordDetector CaptureFacts Scenarios.

Section Late.
Context {M : Type}.
Implicit Types (w : world M).

(** Turns of the worker once the event is cleared: the event and the
    thread the object names stay as they are, no thread comes to life, and
    thread [t] is dead after the first turn. *)
Lemma worker_after_stop t (reads : list (result frame)) : forall w,
  recording (self w) = false ->
  recording (self (replay (map (WorkerTurn t) reads) w)) = false
  /\ recording_thread (self (replay (map (WorkerTurn t) reads) w)) = recording_thread (self w)
  /\ (forall i, threads (replay (map (WorkerTurn t) reads) w) !! i = Some true ->
                threads w !! i = Some true)
  /\ (reads <> [] -> is_alive (replay (map (WorkerTurn t) reads) w) t = false).
Proof.
  induction reads as [|r reads IH]; intros w Hrec.
  - cbn. split; [exact Hrec|]. split; [reflexivity|]. split; [auto|].
    intros H. now destruct H.
  - change (replay (map (WorkerTurn t) (r :: reads)) w)
      with (replay (map (WorkerTurn t) reads) (_recording_worker t r w)).
    destruct (worker_keeps t r w) as (Hths & Hr1 & Hrt1 & _).
    assert (Hl1 : forall i, threads (_recording_worker t r w) !! i = Some true ->
                            threads w !! i = Some true).
    { intros i Hi. destruct Hths as [Hths|Hths]; rewrite Hths in Hi;
        [exact Hi|now apply lookup_killed in Hi]. }
    assert (Hd1 : is_alive (_recording_worker t r w) t = false).
    { destruct (is_alive w t) eqn:Ha.
      - unfold _recording_worker. rewrite Ha, Hrec. cbn [negb]. cbv zeta.
        destruct (read_and_put_keeps r w) as (Hths' & _).
        replace (match r with
                 | Ok _ => true
                 | Raise e => negb (is_Exception e) || true
                 end) with true by (destruct r; cbn; now rewrite ?orb_true_r).
        unfold is_alive in *. cbn. rewrite Hths'.
        destruct (threads w !! t) as [b|] eqn:Hl; [|discriminate].
        rewrite list_lookup_insert_eq; [reflexivity|]. now apply lookup_lt_Some in Hl.
      - unfold _recording_worker. now rewrite Ha. }
    destruct (IH (_recording_worker t r w)) as (Hr & Hrt & Hl & _); [now rewrite Hr1|].
    split; [exact Hr|]. split; [now rewrite Hrt|]. split; [auto|].
    intros _. destruct (is_alive (replay _ _) t) eqn:Ha; [|reflexivity].
    apply is_alive_true, Hl, is_alive_true in Ha. congruence.
Qed.

(** Whether the capture starts again depends on the join. After a stop
    whose join returned in time, [start_recording] starts a new thread and
    the capture runs. After a stop whose join timed out the thread is still
    alive, so [start_recording] does nothing at all: the event stays
    cleared, the old thread leaves its loop at its next test of the event,
    and from then on no thread captures. *)
Theorem late_join_ends_capture w t (reads : list (result frame)) :
  one_thread w -> recording_thread (self w) = Some t -> is_alive w t = true ->
  (capture_running (start_recording (stop_recording true w))
   /\ recording_thread (self (start_recording (stop_recording true w)))
      = Some (length (threads w)))
  /\ start_recording (stop_recording false w) = stop_recording false w
  /\ recording (self (replay (map (WorkerTurn t) reads)
                        (start_recording (stop_recording false w)))) = false
  /\ recording_thread (self (replay (map (WorkerTurn t) reads)
                               (start_recording (stop_recording false w)))) = Some t
  /\ (reads <> [] ->
      alive_count (replay (map (WorkerTurn t) reads)
                     (start_recording (stop_recording false w))) = 0%nat).
Proof.
  intros Hone Ht Ha.
  assert (Hlt : (t < length (threads w))%nat).
  { apply is_alive_true in Ha. now apply lookup_lt_Some in Ha. }
  assert (Hlate : start_recording (stop_recording false w) = stop_recording false w).
  { apply (start_recording_running _ t).
    - unfold stop_recording. cbn. now rewrite Ht.
    - unfold stop_recording. cbn. rewrite Ht. exact Ha. }
  split; [|split; [exact Hlate|]].
  - assert (Hs : stop_recording true w
                 = with_threads (<[t := false]> (threads w))
                     (with_self (set_recording false (Some t)) w)).
    { unfold stop_recording. cbn. now rewrite Ht. }
    rewrite Hs, start_recording_spawn.
    + cbn. rewrite length_insert. split; [|reflexivity].
      split; [reflexivity|]. exists (length (threads w)). split; [reflexivity|].
      unfold is_alive. cbn.
      rewrite lookup_app_r by (rewrite length_insert; lia).
      now rewrite length_insert, Nat.sub_diag.
    + cbn. unfold is_alive. cbn. now rewrite list_lookup_insert_eq.
  - rewrite Hlate.
    assert (Hrec : recording (self (stop_recording false w)) = false).
    { unfold stop_recording. cbn. now rewrite Ht. }
    destruct (worker_after_stop t reads (stop_recording false w) Hrec)
      as (Hr & Hrt & Hl & Hd).
    split; [exact Hr|].
    split; [rewrite Hrt; unfold stop_recording; cbn; now rewrite Ht|].
    intros Hne. specialize (Hd Hne). unfold alive_count.
    rewrite no_thread_alive; [reflexivity|].
    intros i Hi. pose proof (Hl i Hi) as Hold.
    assert (Hold' : threads w !! i = Some true).
    { revert Hold. unfold stop_recording. cbn. now rewrite Ht. }
    specialize (Hone i Hold'). assert (i = t) as -> by congruence.
    apply is_alive_true in Hi. congruence.
Qed.

End Late.

Lemma late_join_ends_capture_witness :
  alive_count
    (replay [WorkerTurn 0 (Ok (frame_of Byte.x01))]
       (start_recording
          (stop_recording false
             (start_recording (boot (self (started plain_platform ["alpha"%string])))))))
  = 0%nat.
Proof.
  refine (proj2 (proj2 (proj2 (proj2
            (late_join_ends_capture
               (start_recording (boot (self (started plain_platform ["alpha"%string]))))
               0%nat [Ok (frame_of Byte.x01)] _ eq_refl eq_refl)))) _).
  - apply one_thread_start, one_thread_boot.
  - discriminate.
Defined.

End CaptureMore.

(** ** More about the configuration *)

Module ConfigMore.
Import WakeWordDetector Scenarios.

Lemma append_cons (c : ascii) (a b : string) : String c a +:+ b = String c (a +:+ b).
Proof. reflexivity. Qed.

Lemma append_nil_r (s : string) : s +:+ EmptyString = s.
Proof. induction s as [|c s IH]; [reflexivity|]. now rewrite append_cons, IH. Qed.

Lemma append_assoc (a b c : string) : (a +:+ b) +:+ c = a +:+ (b +:+ c).
Proof. induction a as [|x a IH]; [reflexivity|]. now rewrite !append_cons, IH. Qed.

Lemma split_acc_nonempty (sep : ascii) (s : string) : forall cur,
  exists n ns, split_acc sep cur s = n :: ns.
Proof.
  induction s as [|c s IH]; intros cur; cbn; [eauto|].
  destruct (Ascii.eqb c sep); [eauto|apply IH].
Qed.

(** Joining the pieces with the separator gives the string back. *)
Lemma split_acc_join (sep : ascii) (s : string) : forall cur,
  join (String sep EmptyString) (split_acc sep cur s) = cur +:+ s.
Proof.
  induction s as [|c s IH]; intros cur.
  - cbn. now rewrite append_nil_r.
  - cbn [split_acc]. destruct (Ascii.eqb_spec c sep) as [->|Hne].
    + specialize (IH EmptyString).
      destruct (split_acc_nonempty sep s EmptyString) as (n & ns & Hs).
      rewrite Hs in *.
      change (join (String sep EmptyString) (cur :: n :: ns))
        with (cur +:+ String sep EmptyString +:+ join (String sep EmptyString) (n :: ns)).
      rewrite IH. reflexivity.
    + rewrite IH, append_assoc. reflexivity.
Qed.

Lemma has_char_snoc (c x : ascii) (cur : string) :
  has_char c (cur +:+ String x EmptyString) = has_char c cur || Ascii.eqb x c.
Proof.
  induction cur as [|y cur IH].
  { change (has_char c (String x EmptyString) = false || Ascii.eqb x c).
    cbn. now destruct (Ascii.eqb x c). }
  rewrite append_cons. cbn [has_char]. now rewrite IH, orb_assoc.
Qed.

(** No piece holds the separator. *)
Lemma split_acc_has_char (sep : ascii) (s : string) : forall cur,
  has_char sep cur = false ->
  Forall (fun x => has_char sep x = false) (split_acc sep cur s).
Proof.
  induction s as [|c s IH]; intros cur Hcur; cbn [split_acc].
  - now constructor.
  - destruct (Ascii.eqb c sep) eqn:Hc.
    + constructor; [exact Hcur|]. now apply IH.
    + apply IH. now rewrite has_char_snoc, Hcur, Hc.
Qed.

Section Config.
Context {M : Type} {D : Detector M} {P : Platform M}.

(** Without a custom model the list of models is never empty. It is the
    override when that is a non-empty list; otherwise (no override, or an
    empty one) it is the value of [WAKE_WORD_MODELS] (default [hey_jarvis])
    cut at its commas and taken as written: the names, joined by commas,
    are the value, and none holds a comma. *)
Theorem named_models_from_environment (environ : gmap string string)
    (models_override : option (list string)) (custom : option string)
    (s : WakeWordDetector M) :
  truthy_opt custom = false ->
  truthy_opt (environ !! "CUSTOM_MODEL_PATH"%string) = false ->
  __init__ environ models_override custom = Ok s ->
  custom_model_path s = None
  /\ exists n ns,
       wake_word_models s = Some (n :: ns)
       /\ (truthy_models models_override = true -> models_override = Some (n :: ns))
       /\ (truthy_models models_override = false ->
           join "," (n :: ns) = getenv environ "WAKE_WORD_MODELS" "hey_jarvis"
           /\ Forall (fun x => has_char "," x = false) (n :: ns)).
Proof.
  intros Hc He. unfold __init__. rewrite Hc, He.
  destruct (float_of_string _) as [th|e]; [|discriminate].
  intros Hs. injection Hs as <-. cbn [custom_model_path wake_word_models].
  split; [reflexivity|].
  destruct (truthy_models models_override) eqn:Hm.
  - destruct models_override as [[|n ns]|]; try discriminate.
    exists n, ns. split; [reflexivity|]. split; [reflexivity|discriminate].
  - unfold split.
    pose proof (split_acc_join "," (getenv environ "WAKE_WORD_MODELS" "hey_jarvis")
                  EmptyString) as Hj.
    pose proof (split_acc_has_char "," (getenv environ "WAKE_WORD_MODELS" "hey_jarvis")
                  EmptyString eq_refl) as Hf.
    destruct (split_acc_nonempty "," (getenv environ "WAKE_WORD_MODELS" "hey_jarvis")
                EmptyString) as (n & ns & Hn).
    rewrite Hn in *. exists n, ns. split; [reflexivity|].
    split; [discriminate|]. intros _. split; [exact Hj|exact Hf].
Qed.

(** [initialize_model] turns every error into [False]: it raises nothing
    that is an [Exception]. It returns [True] exactly when it has set
    [self.model] to what [Model(...)] returned, the last thing it did;
    otherwise it leaves [self.model] alone. When the download of the named
    models fails, [Model] is not called. It touches neither the capture
    thread nor the queue. *)
Theorem initialize_model_outcome (w : world M) :
  (forall e, snd (initialize_model w) = Raise e -> is_Exception e = false)
  /\ (snd (initialize_model w) = Ok true ->
      exists names m tr,
        Model names = Ok m
        /\ model (self (fst (initialize_model w))) = Some m
        /\ trace (fst (initialize_model w)) = trace w ++ tr ++ [ModelLoaded names])
  /\ (snd (initialize_model w) <> Ok true ->
      model (self (fst (initialize_model w))) = model (self w))
  /\ (forall e,
        truthy_opt (custom_model_path (self w)) = false ->
        download_models (wake_word_models (self w)) = Raise e ->
        trace (fst (initialize_model w))
        = trace w ++ [Downloaded (wake_word_models (self w))]
        /\ snd (initialize_model w) <> Ok true)
  /\ capture_state (fst (initialize_model w)) = capture_state w
  /\ audio_queue (self (fst (initialize_model w))) = audio_queue (self w).
Proof.
  assert (Herr : forall e (x : world M),
            (forall e', snd (model_error e x) = Raise e' -> is_Exception e' = false)
            /\ snd (model_error e x) <> Ok true
            /\ self (fst (model_error e x)) = self x
            /\ threads (fst (model_error e x)) = threads x
            /\ trace (fst (model_error e x)) = trace x).
  { intros e x. unfold model_error. destruct (is_Exception e) eqn:He; cbn.
    - repeat split; discriminate.
    - repeat split; [|discriminate]. intros e' He'. injection He' as <-. exact He. }
  assert (Hnamed :
    (forall e, snd (load_named_models w) = Raise e -> is_Exception e = false)
    /\ (snd (load_named_models w) = Ok true ->
        exists names m tr,
          Model names = Ok m
          /\ model (self (fst (load_named_models w))) = Some m
          /\ trace (fst (load_named_models w)) = trace w ++ tr ++ [ModelLoaded names])
    /\ (snd (load_named_models w) <> Ok true ->
        model (self (fst (load_named_models w))) = model (self w))
    /\ (forall e,
          download_models (wake_word_models (self w)) = Raise e ->
          trace (fst (load_named_models w))
          = trace w ++ [Downloaded (wake_word_models (self w))]
          /\ snd (load_named_models w) <> Ok true)
    /\ capture_state (fst (load_named_models w)) = capture_state w
    /\ audio_queue (self (fst (load_named_models w))) = audio_queue (self w)).
  { unfold load_named_models. cbn [self emit].
    destruct (download_models (wake_word_models (self w))) as [[]|e].
    - destruct (Model (wake_word_models (self w))) as [m|e] eqn:Hm.
      + cbn. split; [discriminate|]. split.
        * intros _. exists (wake_word_models (self w)), m,
            [Downloaded (wake_word_models (self w))].
          split; [exact Hm|]. split; [reflexivity|]. now rewrite <- app_assoc.
        * split; [intros H; now destruct H|]. split; [discriminate|]. now split.
      + match goal with |- context [model_error e ?x] =>
          destruct (Herr e x) as (H1 & H2 & H3 & H4 & H5) end.
        split; [exact H1|]. split; [intros H; now destruct H2|].
        split; [intros _; now rewrite H3|]. split; [discriminate|].
        unfold capture_state. now rewrite H3, H4.
    - match goal with |- context [model_error e ?x] =>
        destruct (Herr e x) as (H1 & H2 & H3 & H4 & H5) end.
      split; [exact H1|]. split; [intros H; now destruct H2|].
      split; [intros _; now rewrite H3|].
      split; [intros e' _; split; [now rewrite H5|exact H2]|].
      unfold capture_state. now rewrite H3, H4. }
  assert (Hnamed' :
    truthy_opt (custom_model_path (self w)) = false ->
    initialize_model w = load_named_models w).
  { unfold initialize_model. destruct (custom_model_path (self w)) as [path|]; [|reflexivity].
    cbn. now intros ->. }
  destruct (truthy_opt (custom_model_path (self w))) eqn:Hcustom.
  2: { rewrite (Hnamed' eq_refl). destruct Hnamed as (H1 & H2 & H3 & H4 & H5).
       split; [exact H1|]. split; [exact H2|]. split; [exact H3|].
       split; [intros e _; apply H4|exact H5]. }
  clear Hnamed Hnamed'. unfold initialize_model.
  destruct (custom_model_path (self w)) as [path|]; [|discriminate].
  cbn in Hcustom. rewrite Hcustom.
  unfold load_custom_model.
  destruct (path_exists path); cbn [negb].
  - destruct (Model (Some [path])) as [m|e] eqn:Hm.
    + cbn. split; [discriminate|]. split.
      * intros _. exists (Some [path]), m, []. split; [exact Hm|]. now split.
      * split; [intros H; now destruct H|]. split; [discriminate|]. now split.
    + match goal with |- context [model_error e ?x] =>
        destruct (Herr e x) as (H1 & H2 & H3 & H4 & H5) end.
      split; [exact H1|]. split; [intros H; now destruct H2|].
      split; [intros _; now rewrite H3|]. split; [discriminate|].
      unfold capture_state. now rewrite H3, H4.
  - cbn. split; [discriminate|]. split; [discriminate|]. split; [reflexivity|].
    split; [discriminate|]. now split.
Qed.

End Config.

Lemma named_models_from_environment_witness :
  exists s n ns,
    __init__ (P := plain_platform) ∅ (Some []) None = Ok s
    /\ wake_word_models s = Some (n :: ns).
Proof.
  assert (He : truthy_opt ((∅ : gmap string string) !! "CUSTOM_MODEL_PATH"%string) = false)
    by (vm_compute; reflexivity).
  destruct (__init__ (P := plain_platform) ∅ (Some []) None) as [s|e] eqn:Hs;
    [|vm_compute in Hs; discriminate].
  destruct (named_models_from_environment (P := plain_platform) ∅ (Some []) None s
              eq_refl He Hs)
    as (_ & n & ns & Hw & _).
  exists s, n, ns. split; [reflexivity|exact Hw].
Defined.

End ConfigMore.

(** ** Start-up *)

Module StartupFacts.
Import WakeWordDetector Startup ConfigMore RunFacts Scenarios.

Lemma prefix_append (sub s : string) :
  String.prefix sub s = true <-> exists b, s = sub +:+ b.
Proof.
  revert s. induction sub as [|c sub IH]; intros s.
  - destruct s; (split; [intros _; eexists; reflexivity|reflexivity]).
  - destruct s as [|x s]; cbn [String.prefix].
    + split; [discriminate|]. intros [b Hb]. discriminate.
    + destruct (ascii_dec c x) as [->|Hne].
      * rewrite IH. split; intros [b Hb]; exists b.
        -- now rewrite append_cons, Hb.
        -- rewrite append_cons in Hb. now injection Hb.
      * split; [discriminate|]. intros [b Hb]. rewrite append_cons in Hb.
        injection Hb as Hx _. congruence.
Qed.

(** [contains] is the substring test. *)
Lemma contains_spec (sub s : string) :
  contains sub s = true <-> exists a b, s = a +:+ sub +:+ b.
Proof.
  split.
  - induction s as [|c s IH]; cbn [contains]; rewrite orb_true_iff.
    + intros [H|H]; [|discriminate]. apply prefix_append in H as [b Hb].
      now exists EmptyString, b.
    + intros [H|H].
      * apply prefix_append in H as [b Hb]. now exists EmptyString, b.
      * destruct (IH H) as (a & b & ->). now exists (String c a), b.
  - intros (a & b & ->). induction a as [|c a IH].
    + assert (H : String.prefix sub (sub +:+ b) = true) by (apply prefix_append; eauto).
      change (EmptyString +:+ sub +:+ b) with (sub +:+ b).
      destruct (sub +:+ b); cbn [contains]; now rewrite H.
    + rewrite append_cons. cbn [contains]. rewrite IH. apply orb_true_r.
Qed.

Section Start.
Context {M : Type} {D : Detector M} {P : Platform M} {A : PyAudio}.
Implicit Types (w : world M).

(** The scan keeps the last device whose name holds the words. *)
Lemma scan_spec (name_of : nat -> string) : forall (n i : nat) (target : option nat),
  (forall j, (i <= j < i + n)%nat -> get_device_name j = Ok (Some (name_of j))) ->
  exists target',
    scan n i target = Ok target'
    /\ ((target' = target
         /\ forall j, (i <= j < i + n)%nat -> contains "USB PnP" (name_of j) = false)
        \/ (exists k, (i <= k < i + n)%nat /\ target' = Some k
              /\ contains "USB PnP" (name_of k) = true
              /\ forall j, (k < j < i + n)%nat -> contains "USB PnP" (name_of j) = false)).
Proof.
  induction n as [|n IH]; intros i target Hnames.
  - exists target. split; [reflexivity|]. left. split; [reflexivity|]. intros j Hj. lia.
  - cbn [scan]. rewrite (Hnames i) by lia.
    destruct (IH (S i) (if contains "USB PnP" (name_of i) then Some i else target))
      as (target' & Hscan & Hcase).
    { intros j Hj. apply Hnames. lia. }
    exists target'. split; [exact Hscan|].
    destruct Hcase as [[-> Hnone]|(k & Hk & -> & Hyes & Hafter)].
    + destruct (contains "USB PnP" (name_of i)) eqn:Hi.
      * right. exists i. split; [lia|]. split; [reflexivity|]. split; [exact Hi|].
        intros j Hj. apply Hnone. lia.
      * left. split; [reflexivity|]. intros j Hj.
        destruct (decide (j = i)) as [->|Hne]; [exact Hi|]. apply Hnone. lia.
    + right. exists k. split; [lia|]. split; [reflexivity|]. split; [exact Hyes|].
      intros j Hj. apply Hafter. lia.
Qed.

(** When PyAudio works and every device has a name, [initialize_audio]
    opens the stream on the last device whose name contains "USB PnP" (not
    the first one), and on the default device when there is none, and
    returns [True]. *)
Theorem initialize_audio_last_usb (n : nat) (name_of : nat -> string) :
  PyAudio_new = Ok tt ->
  get_device_count = Ok n ->
  (forall j, (j < n)%nat -> get_device_name j = Ok (Some (name_of j))) ->
  (forall target, open_stream target = Ok tt) ->
  exists target,
    initialize_audio = (mkHandles true (Some target), Ok true)
    /\ match target with
       | Some k =>
           (k < n)%nat
           /\ (exists a b, name_of k = a +:+ "USB PnP" +:+ b)
           /\ forall j, (k < j < n)%nat -> contains "USB PnP" (name_of j) = false
       | None => forall j, (j < n)%nat -> contains "USB PnP" (name_of j) = false
       end.
Proof.
  intros Hnew Hcount Hnames Hopen. unfold initialize_audio.
  rewrite Hnew, Hcount.
  destruct (scan_spec name_of n 0 None) as (target & Hscan & Hcase).
  { intros j Hj. apply Hnames. lia. }
  rewrite Hscan, Hopen. exists target. split; [reflexivity|].
  destruct Hcase as [[-> Hnone]|(k & Hk & -> & Hyes & Hafter)].
  - intros j Hj. apply Hnone. lia.
  - split; [lia|]. split; [now apply contains_spec|]. intros j Hj. apply Hafter. lia.
Qed.

(** [initialize_audio] returns [True] exactly when it has opened the
    stream. *)
Lemma initialize_audio_opened :
  snd initialize_audio = Ok true <-> stream (fst initialize_audio) <> None.
Proof.
  assert (Herr : forall e h,
            stream h = None ->
            snd (audio_error e h) <> Ok true /\ stream (fst (audio_error e h)) = None).
  { intros e h Hh. unfold audio_error. now destruct (is_Exception e). }
  unfold initialize_audio.
  destruct PyAudio_new as [[]|e].
  2: { destruct (Herr e no_handles eq_refl) as (H2 & ->). now split. }
  destruct get_device_count as [n|e].
  2: { destruct (Herr e (mkHandles true None) eq_refl) as (H2 & ->). now split. }
  destruct (scan n 0 None) as [target|e].
  2: { destruct (Herr e (mkHandles true None) eq_refl) as (H2 & ->). now split. }
  destruct (open_stream target) as [[]|e].
  2: { destruct (Herr e (mkHandles true None) eq_refl) as (H2 & ->). now split. }
  cbn. split; [discriminate|reflexivity].
Qed.

(** [initialize_audio] turns every error into [False]: it raises nothing
    that is an [Exception], it returns [True] exactly when it has opened the
    stream, and [self.audio] is set exactly when PyAudio could be created,
    also when the stream could not be opened afterwards. A device without
    a name is such an error: the stream is not opened, whatever the other
    devices are. *)
Theorem initialize_audio_outcome :
  (forall e, snd initialize_audio = Raise e -> is_Exception e = false)
  /\ (snd initialize_audio = Ok true <-> stream (fst initialize_audio) <> None)
  /\ (snd initialize_audio = Ok true ->
      exists target, stream (fst initialize_audio) = Some target
                     /\ open_stream target = Ok tt)
  /\ (audio (fst initialize_audio) = true <-> exists u, PyAudio_new = Ok u)
  /\ (forall n i, PyAudio_new = Ok tt -> get_device_count = Ok n -> (i < n)%nat ->
        (forall j, (j < i)%nat -> exists name, get_device_name j = Ok (Some name)) ->
        get_device_name i = Ok None ->
        initialize_audio = (mkHandles true None, Ok false)).
Proof.
  assert (Herr : forall e h,
            (forall e', snd (audio_error e h) = Raise e' -> is_Exception e' = false)
            /\ snd (audio_error e h) <> Ok true
            /\ fst (audio_error e h) = h).
  { intros e h. unfold audio_error. destruct (is_Exception e) eqn:He; cbn.
    - repeat split; discriminate.
    - repeat split; [|discriminate]. intros e' He'. injection He' as <-. exact He. }
  assert (Hscan : forall n i,
            (forall j, (j < i)%nat -> exists name, get_device_name j = Ok (Some name)) ->
            get_device_name i = Ok None -> (i < n)%nat ->
            forall d k target, d = (i - k)%nat -> (k <= i)%nat ->
            scan (n - k) k target = Raise (OtherException "TypeError")).
  { intros n i Hbefore Hi Hlt d.
    induction d as [|d IH]; intros k target Hd Hk.
    - assert (k = i) as -> by lia.
      destruct (n - i)%nat as [|m] eqn:Hm; [lia|]. cbn [scan]. now rewrite Hi.
    - destruct (n - k)%nat as [|m] eqn:Hm; [lia|]. cbn [scan].
      destruct (Hbefore k) as (name & ->); [lia|].
      replace m with (n - S k)%nat by lia. apply IH; lia. }
  split; [|split; [|split; [|split]]].
  - unfold initialize_audio.
    destruct PyAudio_new as [[]|e]; [|now apply Herr].
    destruct get_device_count as [n|e]; [|now apply Herr].
    destruct (scan n 0 None) as [target|e]; [|now apply Herr].
    destruct (open_stream target) as [[]|e]; [discriminate|now apply Herr].
  - apply initialize_audio_opened.
  - unfold initialize_audio.
    destruct PyAudio_new as [[]|e].
    2: { destruct (Herr e no_handles) as (_ & H2 & _). intros H. now destruct H2. }
    destruct get_device_count as [n|e].
    2: { destruct (Herr e (mkHandles true None)) as (_ & H2 & _).
         intros H. now destruct H2. }
    destruct (scan n 0 None) as [target|e].
    2: { destruct (Herr e (mkHandles true None)) as (_ & H2 & _).
         intros H. now destruct H2. }
    destruct (open_stream target) as [[]|e] eqn:Hopen.
    2: { destruct (Herr e (mkHandles true None)) as (_ & H2 & _).
         intros H. now destruct H2. }
    intros _. exists target. now split.
  - unfold initialize_audio.
    destruct PyAudio_new as [[]|e].
    2: { destruct (Herr e no_handles) as (_ & _ & ->). cbn.
         split; [discriminate|]. intros [u Hu]. discriminate. }
    assert (Hyes : exists u : unit, Ok tt = Ok u :> result unit) by now exists tt.
    destruct get_device_count as [n|e].
    2: { destruct (Herr e (mkHandles true None)) as (_ & _ & ->). now cbn. }
    destruct (scan n 0 None) as [target|e].
    2: { destruct (Herr e (mkHandles true None)) as (_ & _ & ->). now cbn. }
    destruct (open_stream target) as [[]|e].
    2: { destruct (Herr e (mkHandles true None)) as (_ & _ & ->). now cbn. }
    now cbn.
  - intros n i Hnew Hcount Hlt Hbefore Hi. unfold initialize_audio.
    rewrite Hnew, Hcount.
    pose proof (Hscan n i Hbefore Hi Hlt i 0%nat None ltac:(lia) ltac:(lia)) as Hs.
    rewrite Nat.sub_0_r in Hs. rewrite Hs. reflexivity.
Qed.

(** When one of the three checks of [run] fails, [run] is over before the
    loop: no thread has been started, the event is not set, nothing has
    been scored or played, the stream is not open, and [cleanup] has not
    run: all that has been done is the loading of the model. When the video
    is missing not even that is tried, and PyAudio is not created. *)
Theorem failed_check_starts_nothing (schedule : list tick) w :
  verify_video_exists w = false
  \/ snd (initialize_model w) <> Ok true
  \/ snd initialize_audio <> Ok true ->
  let out := run_from_start schedule w in
  snd out <> Listening
  /\ capture_state (fst (fst out)) = capture_state w
  /\ audio_queue (self (fst (fst out))) = audio_queue (self w)
  /\ plays (fst (fst out)) = plays w
  /\ (exists tr, trace (fst (fst out)) = trace w ++ tr /\ Forall loading tr)
  /\ stream (snd (fst out)) = None
  /\ (verify_video_exists w = false -> fst out = (w, no_handles)).
Proof.
  intros Hfail. cbv zeta. unfold run_from_start.
  destruct (verify_video_exists w) eqn:Hvideo; cbn [negb].
  2: { cbn. split; [discriminate|]. split; [reflexivity|]. split; [reflexivity|].
       split; [reflexivity|]. split; [|now split].
       exists []. now rewrite app_nil_r. }
  assert (Hmodel : capture_state (fst (initialize_model w)) = capture_state w
                   /\ audio_queue (self (fst (initialize_model w))) = audio_queue (self w)
                   /\ plays (fst (initialize_model w)) = plays w
                   /\ exists tr, trace (fst (initialize_model w)) = trace w ++ tr
                                 /\ Forall loading tr).
  { unfold initialize_model, load_custom_model, load_named_models, model_error.
    destruct (custom_model_path (self w)) as [path|]; [destruct (truthy path)|];
      repeat match goal with
             | |- context [match ?c with Ok _ => _ | Raise _ => _ end] => destruct c
             | |- context [if ?c then _ else _] => destruct c
             end; cbn;
      (split; [reflexivity|]); (split; [reflexivity|]); (split; [reflexivity|]);
      first [ now (exists []; rewrite app_nil_r)
            | (eexists; split; [reflexivity|repeat constructor])
            | (eexists; split; [now rewrite <- app_assoc|repeat constructor]) ]. }
  destruct Hmodel as (Hcap & Hq & Hpl & Htr).
  destruct (initialize_model w) as [w1 [[]|e]] eqn:Him; cbn [fst snd] in *.
  - destruct Hfail as [Hf|[Hf|Hf]]; [discriminate|now destruct Hf|].
    pose proof initialize_audio_opened as Hstream.
    destruct initialize_audio as [h [[]|e]] eqn:Hia; cbn [fst snd] in *.
    + now destruct Hf.
    + split; [discriminate|]. split; [exact Hcap|]. split; [exact Hq|].
      split; [exact Hpl|]. split; [exact Htr|]. split; [|discriminate].
      destruct (stream h); [|reflexivity].
      assert (Hx : Ok false = Ok true :> result bool) by (apply Hstream; discriminate).
      discriminate.
    + split; [discriminate|]. split; [exact Hcap|]. split; [exact Hq|].
      split; [exact Hpl|]. split; [exact Htr|]. split; [|discriminate].
      destruct (stream h); [|reflexivity].
      assert (Hx : Raise e = Ok true :> result bool) by (apply Hstream; discriminate).
      discriminate.
  - split; [discriminate|]. split; [exact Hcap|]. split; [exact Hq|].
    split; [exact Hpl|]. split; [exact Htr|]. split; [reflexivity|discriminate].
  - split; [discriminate|]. split; [exact Hcap|]. split; [exact Hq|].
    split; [exact Hpl|]. split; [exact Htr|]. split; [reflexivity|discriminate].
Qed.

End Start.

Lemma initialize_audio_last_usb_witness :
  exists target,
    initialize_audio (A := three_devices) = (mkHandles true (Some target), Ok true)
    /\ match target with
       | Some k => exists a b, device_names k = a +:+ "USB PnP" +:+ b
       | None => True
       end.
Proof.
  destruct (initialize_audio_last_usb (A := three_devices) 3 device_names
              eq_refl eq_refl (fun j _ => eq_refl) (fun _ => eq_refl))
    as (target & Hinit & Hlast).
  exists target. split; [exact Hinit|].
  destruct target as [k|]; [|exact I]. exact (proj1 (proj2 Hlast)).
Defined.

Lemma failed_check_starts_nothing_witness :
  fst (run_from_start (D := alpha_detector) (P := no_video) (A := three_devices)
         queued_schedule (started plain_platform ["alpha"%string]))
  = (started plain_platform ["alpha"%string], no_handles).
Proof.
  refine (proj2 (proj2 (proj2 (proj2 (proj2 (proj2
            (failed_check_starts_nothing (D := alpha_detector) (P := no_video)
               (A := three_devices) queued_schedule
               (started plain_platform ["alpha"%string]) (or_introl eq_refl))))))) eq_refl).
Defined.

End StartupFacts.

(** ** The video *)

Module PlaybackFacts.
Import WakeWordDetector TriggerFacts RunFacts Scenarios.




Section Playback.
Context {M : Type} {D : Detector M} {P : Platform M}.
Implicit Types (w : world M).






End Playback.
End PlaybackFacts.

(** ** The command line *)

Module MainFacts.
Import WakeWordDetector Startup ConfigMore Scenarios.

Section Main.
Context {M : Type} {D : Detector M} {P : Platform M} {A : PyAudio}.

(** The override [main] builds is [None] or a list that is not empty. *)
Lemma models_override_truthy (args : arguments) :
  match models_override args with
  | Some l => truthy_opt (models args) = true /\ exists n ns, l = n :: ns
  | None => truthy_opt (models args) = false
  end.
Proof.
  unfold models_override. destruct (models args) as [m|]; [|reflexivity].
  cbn [truthy_opt]. destruct (truthy m); [|reflexivity].
  split; [reflexivity|]. unfold split.
  destruct (split_acc_nonempty "," m EmptyString) as (n & ns & ->).
  cbn [map]. eauto.
Qed.

(** Which models [main] configures when no custom model is given. A
    [--models] option that is not empty always wins over
    [WAKE_WORD_MODELS]: its value is cut at the commas and each piece is
    stripped (a value made of commas and spaces only still gives names, all
    empty). A [--models] option that is empty counts as not given: the
    names are those of [WAKE_WORD_MODELS] (default [hey_jarvis]), cut at
    the commas and not stripped. *)
Theorem models_flag_overrides_environment (environ : gmap string string)
    (args : arguments) (s : WakeWordDetector M) :
  truthy_opt (model_path args) = false ->
  truthy_opt (environ !! "CUSTOM_MODEL_PATH"%string) = false ->
  main_detector environ args = Ok s ->
  (forall m, models args = Some m -> truthy m = true ->
     wake_word_models s = Some (map strip (split "," m))
     /\ length (map strip (split "," m)) <> 0%nat)
  /\ (truthy_opt (models args) = false ->
      wake_word_models s = Some (split "," (getenv environ "WAKE_WORD_MODELS" "hey_jarvis"))).
Proof.
  intros Hc He. unfold main_detector, __init__. rewrite Hc, He.
  destruct (float_of_string _) as [th|e]; [|discriminate].
  intros Hs. injection Hs as <-. cbn [wake_word_models].
  pose proof (models_override_truthy args) as Ho.
  split.
  - intros m Hm Ht. unfold models_override in *. rewrite Hm, Ht in *.
    destruct Ho as (_ & n & ns & Hl). rewrite Hl. cbn [truthy_models length].
    split; [reflexivity|discriminate].
  - intros Hf. destruct (models_override args) as [l|]; [|reflexivity].
    destruct Ho as [Ho _]. congruence.
Qed.

End Main.

Lemma models_flag_overrides_environment_witness :
  exists s,
    main_detector (P := plain_platform) ∅ (mkArgs (Some models_flag) None) = Ok s
    /\ wake_word_models s = Some ["alpha"%string; "beta"%string].
Proof.
  assert (He : truthy_opt ((∅ : gmap string string) !! "CUSTOM_MODEL_PATH"%string) = false)
    by (vm_compute; reflexivity).
  destruct (main_detector (P := plain_platform) ∅ (mkArgs (Some models_flag) None))
    as [s|e] eqn:Hs; [|vm_compute in Hs; discriminate].
  destruct (models_flag_overrides_environment (P := plain_platform) ∅
              (mkArgs (Some models_flag) None) s eq_refl He Hs) as [Hm _].
  exists s. split; [reflexivity|]. exact (proj1 (Hm _ eq_refl eq_refl)).
Defined.

End MainFacts.

(** ** The detection branch, step by step *)

Module SequenceFacts.
Import WakeWordDetector CaptureFacts TriggerFacts RunFacts Scenarios.

Section Sequence.
Context {M : Type} {D : Detector M} {P : Platform M}.
Implicit Types (w : world M).






End Sequence.



End SequenceFacts.
